(** * The [views] CoreDNS plugin (simpledns): loading and answering

    A shallow embedding of [src/setup.go] (the configuration loader
    [loadConfig] and its refresh loop, the block parser [parse] with
    [schemaCheck], and the fetches [parseFromYAML] and [parseFromHTTP]
    over the library calls they make), of the library helpers it calls
    for name normalisation, and of the query path of the plugin, which is
    not part of [src/] and is modelled from the specification. *)

From Stdlib Require Import Ascii String ZArith.
From stdpp Require Import base gmap strings list fin_maps.



(* ------------------------------------------------------------------ *)
(** ** Strings: [strings.ToLower], [strings.ToUpper], [dns.Fqdn] *)

(** Names are byte strings.  Go's [strings.ToLower] and [strings.ToUpper]
    map the ASCII letters and leave every other ASCII byte alone; the
    model covers ASCII input, on which this is what they do. *)
Definition ascii_lower (c : ascii) : ascii :=
  let n := Ascii.nat_of_ascii c in
  if (65 <=? n)%nat && (n <=? 90)%nat then Ascii.ascii_of_nat (n + 32) else c.

Definition ascii_upper (c : ascii) : ascii :=
  let n := Ascii.nat_of_ascii c in
  if (97 <=? n)%nat && (n <=? 122)%nat then Ascii.ascii_of_nat (n - 32) else c.

Fixpoint ToLower (s : string) : string :=
  match s with
  | EmptyString => EmptyString
  | String c r => String (ascii_lower c) (ToLower r)
  end.

Fixpoint ToUpper (s : string) : string :=
  match s with
  | EmptyString => EmptyString
  | String c r => String (ascii_upper c) (ToUpper r)
  end.

(** Number of backslashes at the head of a (reversed) byte list. *)
Fixpoint leading_backslashes (l : list ascii) : nat :=
  match l with
  | c :: r => if Ascii.eqb c "\"%char then S (leading_backslashes r) else 0
  | [] => 0
  end.

(** [dns.IsFqdn] (miekg/dns): the name ends in a dot, and that dot is not
    escaped, i.e. it is preceded by an even number of backslashes. *)
Definition IsFqdn (s : string) : bool :=
  match rev (list_ascii_of_string s) with
  | c :: rest => Ascii.eqb c "."%char && Nat.even (leading_backslashes rest)
  | [] => false
  end.

(** [dns.Fqdn]: append a dot unless the name is already fully qualified. *)
Definition Fqdn (s : string) : string :=
  if IsFqdn s then s else String.append s ".".

(** [plugin.Name(s).Normalize()] = [strings.ToLower(dns.Fqdn(s))]. *)
Definition Name_Normalize (s : string) : string := ToLower (Fqdn s).

(* ------------------------------------------------------------------ *)
(** ** [strings.LastIndex], [strconv.Atoi] *)

(** Index of the last occurrence of [c] in [s] ([strings.LastIndex]). *)
Fixpoint LastIndex (c : ascii) (s : string) : option nat :=
  match s with
  | EmptyString => None
  | String d r =>
      match LastIndex c r with
      | Some i => Some (S i)
      | None => if Ascii.eqb c d then Some 0 else None
      end
  end.

Definition is_digit (c : ascii) : bool :=
  let n := Ascii.nat_of_ascii c in (48 <=? n)%nat && (n <=? 57)%nat.

Fixpoint digits_value (s : string) (acc : N) : option N :=
  match s with
  | EmptyString => Some acc
  | String c r =>
      if is_digit c
      then digits_value r (acc * 10 + N.of_nat (Ascii.nat_of_ascii c - 48))%N
      else None
  end.

(** [strconv.Atoi] succeeds: an optional sign, at least one decimal
    digit, and a value in the range of a 64-bit [int]. *)
Definition Atoi_ok (s : string) : bool :=
  let '(neg, ds) :=
    match s with
    | String c r =>
        if Ascii.eqb c "-"%char then (true, r)
        else if Ascii.eqb c "+"%char then (false, r) else (false, s)
    | EmptyString => (false, s)
    end in
  match ds with
  | EmptyString => false
  | _ =>
      match digits_value ds 0 with
      | Some v => if neg then (v <=? 2 ^ 63)%N else (v <=? 2 ^ 63 - 1)%N
      | None => false
      end
  end.


(* ------------------------------------------------------------------ *)
(** ** Data model *)

(** [net.IPNet]: network number and mask, as byte slices. *)
Module IPNet.
Record t := mk { IP : list Z; Mask : list Z }.
End IPNet.

(** A client address ([net.IP]). *)
Abbreviation IP := (list Z).

(** [RawClientACL]: one entry of the client document. *)
Module RawClientACL.
Record t := mk { Name : string; CIDRPrefixes : list string }.
End RawClientACL.

(** The anonymous element type of [RawRecord.Records]. *)
Module RawRecordEntry.
Record t := mk { Name : string; TTL : N; Type' : string; Value : string }.
End RawRecordEntry.

(** [RawRecord]: one record set of the record document. *)
Module RawRecord.
Record t := mk { Name : string; Records : list RawRecordEntry.t }.
End RawRecord.

(** [ClientACL]: a named group of parsed prefixes. *)
Module ClientACL.
Record t := mk { Name : string; CIDRNets : list IPNet.t }.
End ClientACL.

(** [Zone]: one stored record; [Type'] ([Type] is a keyword) is the [uint16] RR type. *)
Module Zone.
Record t := mk { Name : string; TTL : N; Type' : N; Value : string }.
End Zone.

(** [Zones]: one record set, the names in load order and the map. *)
Module Zones.
Record t := mk { Names : list string; Z : gmap string Zone.t }.
End Zones.

(** The fields of the plugin value [Views] that the loader reads or
    writes ([Record] is a keyword, hence [Record']). *)
Module Views.
Record t := mk {
  Client : string;
  Record' : string;
  ClientSchema : string;
  RecordSchema : string;
  ClientACLs : list ClientACL.t;
  ClientZones : gmap string Zones.t
}.
End Views.

(* ------------------------------------------------------------------ *)
(** ** IPv4 prefixes: [net.ParseCIDR], [net.IPNet.Contains] *)

Fixpoint split_on (sep : ascii) (s : string) : list string :=
  match s with
  | EmptyString => [EmptyString]
  | String c r =>
      if Ascii.eqb c sep then EmptyString :: split_on sep r
      else match split_on sep r with
           | w :: ws => String c w :: ws
           | [] => [String c EmptyString]
           end
  end.

(** One dotted-decimal field of [parseIPv4]: 1 to 3 digits, no leading
    zero, at most 255. *)
Definition ipv4_field (s : string) : option Z :=
  match s with
  | EmptyString => None
  | String c r =>
      if (3 <? String.length s)%nat then None
      else if Ascii.eqb c "0"%char && negb (String.eqb r EmptyString) then None
      else match digits_value s 0 with
           | Some n => if (n <=? 255)%N then Some (Z.of_N n) else None
           | None => None
           end
  end.

(** [net.CIDRMask(n, 32)] as four bytes. *)
Definition cidr_mask4 (n : Z) : list Z :=
  map (fun k => if (8 * (k + 1) <=? n)%Z then 255%Z
                else if (n <=? 8 * k)%Z then 0%Z
                else (256 - 2 ^ (8 - (n - 8 * k)))%Z) [0; 1; 2; 3]%Z.

(** The IPv4 case of [net.ParseCIDR]: ["a.b.c.d/n"] with [0 <= n <= 32];
    the network number is the address under the mask. *)
Definition ParseCIDR4 (s : string) : option IPNet.t :=
  match split_on "/"%char s with
  | [addr; len] =>
      match mapM ipv4_field (split_on "."%char addr), digits_value len 0 with
      | Some ip, Some n =>
          if (length ip =? 4)%nat && negb (String.eqb len EmptyString) && (n <=? 32)%N
          then let m := cidr_mask4 (Z.of_N n) in
               Some {| IPNet.IP := zip_with Z.land ip m; IPNet.Mask := m |}
          else None
      | _, _ => None
      end
  | _ => None
  end.

(** [net.IPNet.Contains] for addresses of the network's length:
    every byte agrees with the network number under the mask. *)
Definition Contains4 (n : IPNet.t) (ip : IP) : bool :=
  (length ip =? length (IPNet.IP n))%nat &&
  forallb (fun t => Z.eqb (Z.land t.1.1 t.2) (Z.land t.1.2 t.2))
    (zip (zip (IPNet.IP n) ip) (IPNet.Mask n)).

(* ------------------------------------------------------------------ *)
(** ** [strings.HasPrefix], [strings.HasSuffix] *)

(** [strings.HasPrefix] and [strings.HasSuffix] (Go standard library):
    [len(s) >= len(prefix) && s[0:len(prefix)] == prefix], and
    [len(s) >= len(suffix) && s[len(s)-len(suffix):] == suffix]. *)
Definition HasPrefix (s prefix : string) : bool :=
  (String.length prefix <=? String.length s)%nat &&
  String.eqb (String.substring 0 (String.length prefix) s) prefix.

Definition HasSuffix (s suffix : string) : bool :=
  (String.length suffix <=? String.length s)%nat &&
  String.eqb (String.substring (String.length s - String.length suffix) (String.length suffix) s) suffix.

(** Number of backslashes at the end of a name. *)
Definition trailing_backslashes (s : string) : nat :=
  leading_backslashes (rev (list_ascii_of_string s)).

Definition has_colon (s : string) : bool :=
  existsb (fun c => Ascii.eqb c ":"%char) (list_ascii_of_string s).

(* ------------------------------------------------------------------ *)
(** ** [plugin.Host(s).Normalize()] (CoreDNS [plugin/normalize.go]) *)

(** [s[len(p):]] for a prefix [p] of [s]. *)
Definition drop_prefix (p s : string) : string :=
  String.substring (String.length p) (String.length s - String.length p) s.

(** [parse.Transport]: the case-sensitive prefixes [tls://], [dns://],
    [grpc://] and [https://] are cut off, in this order; any other name
    is left as it is, with transport [dns]. *)
Definition Transport (s : string) : string * string :=
  if HasPrefix s "tls://" then ("tls", drop_prefix "tls://" s)
  else if HasPrefix s "dns://" then ("dns", drop_prefix "dns://" s)
  else if HasPrefix s "grpc://" then ("grpc", drop_prefix "grpc://" s)
  else if HasPrefix s "https://" then ("https", drop_prefix "https://" s)
  else ("dns", s).

(** The loop of [dns.IsDomainName] (miekg/dns) over the bytes [l] of the
    fully qualified name, of length [len], from index [i]:
    [off] is the packed length so far ([lenmsg = 256]), [begin] the start
    of the current label, [wasDot] whether the previous byte was a dot.
    A backslash skips the escaped byte, or the three digits of a
    [\DDD] escape; a dot closes a label of at most 63 bytes. *)
Fixpoint domain_loop (len : nat) (l : list ascii) (i off begin : nat) (wasDot : bool)
    {struct l} : bool :=
  match l with
  | [] => true
  | c :: rest =>
      if Ascii.eqb c "\"%char then
        if (256 <? off + 1)%nat then false
        else match rest with
             | [] => true
             | d1 :: tl =>
                 match tl with
                 | d2 :: d3 :: rest' =>
                     if is_digit d1 && is_digit d2 && is_digit d3
                     then domain_loop len rest' (i + 4) off (begin + 3) false
                     else domain_loop len tl (i + 2) off (begin + 1) false
                 | _ => domain_loop len tl (i + 2) off (begin + 1) false
                 end
             end
      else if Ascii.eqb c "."%char then
        if (i =? 0)%nat && (1 <? len)%nat then false
        else if wasDot then false
        else let labelLen := (i - begin)%nat in
             if (64 <=? labelLen)%nat then false
             else let off' := (off + 1 + labelLen)%nat in
                  if (256 <? off')%nat then false
                  else domain_loop len rest (S i) off' (S i) true
      else domain_loop len rest (S i) off begin false
  end.

(** [dns.IsDomainName(s)], its [ok] result. *)
Definition IsDomainName (s : string) : bool :=
  match s with
  | EmptyString => false
  | _ => let f := Fqdn s in
         domain_loop (String.length f) (list_ascii_of_string f) 0 0 0 false
  end.

(** The library functions [plugin.SplitHostPort] calls after the port is
    cut: [dns.IsDomainName], [net.ParseCIDR] and the reverse zone of a
    network ([hosts[0]] of the zones it returns for a CIDR). *)
Module HostLib.
Record t := mk {
  IsDomainName : string -> bool;
  ParseCIDR : string -> option IPNet.t;
  ReverseZone : IPNet.t -> string
}.
End HostLib.

(** The first part of [plugin.SplitHostPort]: [colon := strings.LastIndex(s, ":")];
    a colon as last byte is an error (this includes [s = ""], where
    [colon = -1 = len(s)-1]); a port that [strconv.Atoi] accepts is cut. *)
Definition port_cut (s : string) : option string :=
  let colon : Z := match LastIndex ":"%char s with
                   | Some i => Z.of_nat i
                   | None => (-1)%Z
                   end in
  if (colon =? Z.of_nat (String.length s) - 1)%Z then None
  else match LastIndex ":"%char s with
       | None => Some s
       | Some i =>
           if Atoi_ok (substring (S i) (String.length s - S i) s)
           then Some (substring 0 i s) else Some s
       end.

(** [s[0] == ':' || (s[0] == '0' && strings.Contains(s, ":"))]. *)
Definition invalid_cidr_start (s : string) : bool :=
  match s with
  | String c _ => Ascii.eqb c ":"%char || (Ascii.eqb c "0"%char && has_colon s)
  | EmptyString => false
  end.

(** [plugin.SplitHostPort(s)], its [hosts[0]]; [None] when it returns an
    error: after the port, a host longer than 255 bytes or one that
    [dns.IsDomainName] refuses is an error; a host that is not a CIDR is
    returned as it is, a CIDR is replaced by its reverse zone. *)
Definition SplitHostPort (lib : HostLib.t) (s : string) : option string :=
  match port_cut s with
  | None => None
  | Some s =>
      if (255 <? String.length s)%nat then None
      else if negb (HostLib.IsDomainName lib s) then None
      else match HostLib.ParseCIDR lib s with
           | None => Some s
           | Some n => if invalid_cidr_start s then None
                       else Some (HostLib.ReverseZone lib n)
           end
  end.

(** [func (h Host) Normalize() string]:
    [_, s := parse.Transport(s)]; [hosts, _, err := SplitHostPort(s)];
    [""] on an error, else [Name(hosts[0]).Normalize()]. *)
Definition Host_Normalize_with (lib : HostLib.t) (s : string) : string :=
  let '(_, s) := Transport s in
  match SplitHostPort lib s with
  | Some host => Name_Normalize host
  | None => ""
  end.

(** No transport prefix for [parse.Transport] to cut. *)
Definition transport_free (s : string) : bool :=
  negb (HasPrefix s "tls://" || HasPrefix s "dns://" || HasPrefix s "grpc://" ||
        HasPrefix s "https://").

(** What the normaliser's properties need of the library:
    [dns.IsDomainName] reads letters without regard to case and qualifies
    the name itself first; [net.ParseCIDR] reads hexadecimal digits
    without regard to case and refuses a prefix length with a dot. *)
Record lib_facts (lib : HostLib.t) : Prop := {
  idn_lower : ∀ s, HostLib.IsDomainName lib (ToLower s) = HostLib.IsDomainName lib s;
  idn_fqdn : ∀ s, s <> "" -> Nat.even (trailing_backslashes s) = true ->
    HostLib.IsDomainName lib (Fqdn s) = HostLib.IsDomainName lib s;
  cidr_lower : ∀ s, HostLib.ParseCIDR lib (ToLower s) = HostLib.ParseCIDR lib s;
  cidr_dot : ∀ s, HostLib.ParseCIDR lib (String.append s ".") = None
}.

(** A name that [SplitHostPort] returns as its host: non-empty, no
    [':'], shorter than 255 bytes, not ending in an odd run of
    backslashes, and not a CIDR. *)
Definition plain_name (lib : HostLib.t) (n : string) : Prop :=
  n <> "" /\ has_colon n = false /\ (String.length n < 255)%nat /\
  Nat.even (trailing_backslashes n) = true /\ HostLib.ParseCIDR lib n = None.

(** Decimal digits of a byte value, as [strconv.Itoa] writes them. *)
Definition dec_digit (d : Z) : ascii := Ascii.ascii_of_nat (48 + Z.to_nat d).

Definition dec_byte (x : Z) : string :=
  if (x <? 10)%Z then String (dec_digit x) ""
  else if (x <? 100)%Z then String (dec_digit (x / 10)) (String (dec_digit (x mod 10)) "")
  else String (dec_digit (x / 100))
         (String (dec_digit (x / 10 mod 10)) (String (dec_digit (x mod 10)) "")).

(** The first reverse zone of an IPv4 network: the bytes of the network
    number that the mask covers (whole bytes, rounded up), in reverse
    order, under [in-addr.arpa.]; ["10.0.0.0/8"] gives ["10.in-addr.arpa."]. *)
Definition reverse4 (n : IPNet.t) : string :=
  let k := List.length (List.filter (fun b => negb (Z.eqb b 0)) (IPNet.Mask n)) in
  fold_right (fun x acc => String.append (dec_byte x) (String "." acc))
    "in-addr.arpa." (rev (firstn k (IPNet.IP n))).

(** The library as the plugin links it, for IPv4 networks. *)
Definition go_lib : HostLib.t := HostLib.mk IsDomainName ParseCIDR4 reverse4.

Definition Host_Normalize (s : string) : string := Host_Normalize_with go_lib s.

(** Modelled from the spec: the schema constants [SchemaYAML] and
    [SchemaHTTP] of the plugin's [views.go], which is not in [src/]; the
    spec names two distinct source kinds, only their distinctness
    matters. *)
Definition SchemaYAML : string := "yaml".
Definition SchemaHTTP : string := "http".

(** RR type numbers of miekg/dns; [0] ([dns.TypeNone]) is the zero value
    the loader leaves for an unrecognised type string. *)
Definition TypeNone : N := 0.
Definition TypeA : N := 1.
Definition TypeCNAME : N := 5.
Definition TypeTXT : N := 16.
Definition TypeAAAA : N := 28.

(** What [loadConfig] logs. *)
Inductive LogEntry :=
| LogError (err : string)
| LogWarningInvalidCIDR (name cidr : string).

(** The outcome of one [parseFromYAML]/[parseFromHTTP] call: the value
    left in the output variable, and the returned error. *)
Definition Fetched (A : Type) := (list A * option string)%type.

(** The I/O done by the loader: reading a YAML file or fetching a JSON
    document, and decoding it into the raw types. *)
Module Sources.
Record t := mk {
  yamlClients : string -> Fetched RawClientACL.t;
  httpClients : string -> Fetched RawClientACL.t;
  yamlRecords : string -> Fetched RawRecord.t;
  httpRecords : string -> Fetched RawRecord.t
}.
End Sources.

(* ------------------------------------------------------------------ *)
(** ** [loadConfig] *)

(** The [switch t] on the upper-cased type string. *)
Definition rrtype_of (t : string) : N :=
  if String.eqb t "A" then TypeA
  else if String.eqb t "AAAA" then TypeAAAA
  else if String.eqb t "CNAME" then TypeCNAME
  else if String.eqb t "TXT" then TypeTXT
  else TypeNone.

(** The [Zone] built from one raw record. *)
Definition zone_of_raw (rawRecord : RawRecordEntry.t) : Zone.t :=
  {| Zone.Name := Host_Normalize (RawRecordEntry.Name rawRecord);
     Zone.TTL := RawRecordEntry.TTL rawRecord;
     Zone.Type' := rrtype_of (ToUpper (RawRecordEntry.Type' rawRecord));
     Zone.Value := Host_Normalize (RawRecordEntry.Value rawRecord) |}.

(** One iteration of the inner loop: append the name, then
    [zones.Z[rr.Name] = rr]. *)
Definition add_record (zones : Zones.t) (rawRecord : RawRecordEntry.t) : Zones.t :=
  let rr := zone_of_raw rawRecord in
  {| Zones.Names := Zones.Names zones ++ [Zone.Name rr];
     Zones.Z := <[Zone.Name rr := rr]> (Zones.Z zones) |}.

Definition empty_zones : Zones.t := {| Zones.Names := []; Zones.Z := ∅ |}.

(** The [Zones] value built for one raw record set. *)
Definition build_zones (records : list RawRecordEntry.t) : Zones.t :=
  fold_left add_record records empty_zones.

(** The outer loop: [v.ClientZones[r.Name] = zones]. *)
Definition build_client_zones (rawRecords : list RawRecord.t) : gmap string Zones.t :=
  fold_left (fun m r => <[RawRecord.Name r := build_zones (RawRecord.Records r)]> m)
    rawRecords ∅.

Section Load.

(** [net.ParseCIDR] (Go standard library): the parsed network, or [None]
    on a malformed prefix. *)
Variable ParseCIDR : string -> option IPNet.t.

(** The inner loop over [client.CIDRPrefixes]: keep each parsed network,
    warn and [continue] on a malformed one. *)
Definition step_cidr (name : string) (acc : list IPNet.t * list LogEntry) (cidr : string)
  : list IPNet.t * list LogEntry :=
  let '(cidrNets, logs) := acc in
  match ParseCIDR cidr with
  | None => (cidrNets, logs ++ [LogWarningInvalidCIDR name cidr])
  | Some cidrNet => (cidrNets ++ [cidrNet], logs)
  end.

Definition parse_cidrs (name : string) (cidrs : list string) : list IPNet.t * list LogEntry :=
  fold_left (step_cidr name) cidrs ([], []).

(** One iteration of the outer loop: append the group. *)
Definition step_client (acc : list ClientACL.t * list LogEntry) (client : RawClientACL.t)
  : list ClientACL.t * list LogEntry :=
  let '(acls, logs) := acc in
  let '(cidrNets, ws) := parse_cidrs (RawClientACL.Name client) (RawClientACL.CIDRPrefixes client) in
  (acls ++ [{| ClientACL.Name := RawClientACL.Name client; ClientACL.CIDRNets := cidrNets |}],
   logs ++ ws).

(** [v.ClientACLs = []*ClientACL{}] followed by the loop. *)
Definition build_acls (rawClients : list RawClientACL.t) : list ClientACL.t * list LogEntry :=
  fold_left step_client rawClients ([], []).

Definition log_err (err : option string) : list LogEntry :=
  match err with Some e => [LogError e] | None => [] end.

(** The first [switch v.ClientSchema]: [rawClients] starts [nil] and
    [err] starts [nil]. *)
Definition fetch_clients (src : Sources.t) (v : Views.t) : Fetched RawClientACL.t :=
  if String.eqb (Views.ClientSchema v) SchemaYAML then Sources.yamlClients src (Views.Client v)
  else if String.eqb (Views.ClientSchema v) SchemaHTTP then Sources.httpClients src (Views.Client v)
  else ([], None).

(** The second switch; when neither case applies, [err] keeps the value
    it had after the first one. *)
Definition fetch_records (src : Sources.t) (v : Views.t) (err : option string)
  : Fetched RawRecord.t :=
  if String.eqb (Views.RecordSchema v) SchemaYAML then Sources.yamlRecords src (Views.Record' v)
  else if String.eqb (Views.RecordSchema v) SchemaHTTP then Sources.httpRecords src (Views.Record' v)
  else ([], err).

(** [func (v *Views) loadConfig()]: the new plugin value and the log. *)
Definition loadConfig (src : Sources.t) (v : Views.t) : Views.t * list LogEntry :=
  let '(rawClients, errC) := fetch_clients src v in
  let '(rawRecords, errR) := fetch_records src v errC in
  let '(acls, warnings) := build_acls rawClients in
  ({| Views.Client := Views.Client v;
      Views.Record' := Views.Record' v;
      Views.ClientSchema := Views.ClientSchema v;
      Views.RecordSchema := Views.RecordSchema v;
      Views.ClientACLs := acls;
      Views.ClientZones := build_client_zones rawRecords |},
   log_err errC ++ log_err errR ++ warnings).

End Load.

(* ------------------------------------------------------------------ *)
(** ** The writes of [loadConfig], as a concurrent reader sees them *)

Definition with_acls (v : Views.t) (acls : list ClientACL.t) : Views.t :=
  {| Views.Client := Views.Client v; Views.Record' := Views.Record' v;
     Views.ClientSchema := Views.ClientSchema v; Views.RecordSchema := Views.RecordSchema v;
     Views.ClientACLs := acls; Views.ClientZones := Views.ClientZones v |}.

Definition with_zones (v : Views.t) (zs : gmap string Zones.t) : Views.t :=
  {| Views.Client := Views.Client v; Views.Record' := Views.Record' v;
     Views.ClientSchema := Views.ClientSchema v; Views.RecordSchema := Views.RecordSchema v;
     Views.ClientACLs := Views.ClientACLs v; Views.ClientZones := zs |}.

Section Trace.

Variable ParseCIDR : string -> option IPNet.t.

Definition acl_of (client : RawClientACL.t) : ClientACL.t :=
  {| ClientACL.Name := RawClientACL.Name client;
     ClientACL.CIDRNets := fst (parse_cidrs ParseCIDR (RawClientACL.Name client)
                                  (RawClientACL.CIDRPrefixes client)) |}.

(** [v.ClientACLs = append(v.ClientACLs, ...)], once per raw client,
    each a write to the shared value. *)
Fixpoint trace_acls (v : Views.t) (rawClients : list RawClientACL.t) : list Views.t :=
  match rawClients with
  | [] => []
  | client :: rest =>
      let v' := with_acls v (Views.ClientACLs v ++ [acl_of client]) in
      v' :: trace_acls v' rest
  end.

(** [v.ClientZones[r.Name] = zones], once per raw record set, each a
    write into the map already installed in the shared value. *)
Fixpoint trace_zones (v : Views.t) (rawRecords : list RawRecord.t) : list Views.t :=
  match rawRecords with
  | [] => []
  | r :: rest =>
      let v' := with_zones v (<[RawRecord.Name r := build_zones (RawRecord.Records r)]>
                                (Views.ClientZones v)) in
      v' :: trace_zones v' rest
  end.

(** The successive values of the shared plugin value while [loadConfig]
    runs (statement granularity): the reset [v.ClientACLs = []*ClientACL{}],
    one append per group, the reset [v.ClientZones = make(...)], one
    insertion per record set.  A query handled concurrently reads any one
    of them. *)
Definition loadConfig_trace (src : Sources.t) (v : Views.t) : list Views.t :=
  let '(rawClients, errC) := fetch_clients src v in
  let '(rawRecords, _) := fetch_records src v errC in
  let v1 := with_acls v [] in
  let ta := trace_acls v1 rawClients in
  let v2 := with_zones (List.last ta v1) ∅ in
  v1 :: ta ++ v2 :: trace_zones v2 rawRecords.

End Trace.

(* ------------------------------------------------------------------ *)
(** ** The query path *)

(** The answer handed to the DNS chain, or the signal to call the next
    plugin. *)
Inductive Result :=
| Answer (ty : N) (ttl : N) (value : string)
| Decline.

Section Query.

(** [net.IPNet.Contains] (Go standard library). *)
Variable Contains : IPNet.t -> IP -> bool.

(** Modelled from the spec: the address-group matcher of the plugin's
    [views.go], not in [src/] (section 4.1): the groups are tried in the
    declared order and the first one with a prefix containing the address
    gives the view name. *)
Fixpoint match_acl (acls : list ClientACL.t) (ip : IP) : option string :=
  match acls with
  | [] => None
  | acl :: rest =>
      if existsb (fun n => Contains n ip) (ClientACL.CIDRNets acl)
      then Some (ClientACL.Name acl)
      else match_acl rest ip
  end.

(** Modelled from the spec: the query resolver of the plugin's
    [views.go] ([ServeDNS]), not in [src/] (section 4.4): match the
    client, look the record set up by the group name, look the normalised
    query name up, and answer only when the stored type is known and equal
    to the query type. *)
Definition resolve (v : Views.t) (ip : IP) (qname : string) (qtype : N) : Result :=
  match match_acl (Views.ClientACLs v) ip with
  | None => Decline
  | Some group =>
      match Views.ClientZones v !! group with
      | None => Decline
      | Some zones =>
          match Zones.Z zones !! Host_Normalize qname with
          | None => Decline
          | Some rr =>
              if N.eqb (Zone.Type' rr) TypeNone || negb (N.eqb (Zone.Type' rr) qtype)
              then Decline
              else Answer (Zone.Type' rr) (Zone.TTL rr) (Zone.Value rr)
          end
      end
  end.

End Query.


(* ------------------------------------------------------------------ *)
(** ** The configuration of the spec's scenario *)

Definition client_internal : RawClientACL.t :=
  {| RawClientACL.Name := "internal"; RawClientACL.CIDRPrefixes := ["10.0.0.0/8"] |}.

Definition client_external : RawClientACL.t :=
  {| RawClientACL.Name := "external"; RawClientACL.CIDRPrefixes := ["0.0.0.0/0"] |}.

Definition scenario_clients : list RawClientACL.t := [client_internal; client_external].

Definition host_record (value : string) : RawRecordEntry.t :=
  {| RawRecordEntry.Name := "host.example.com"; RawRecordEntry.TTL := 300;
     RawRecordEntry.Type' := "A"; RawRecordEntry.Value := value |}.

Definition scenario_records : list RawRecord.t :=
  [ {| RawRecord.Name := "internal"; RawRecord.Records := [host_record "10.1.2.3"] |};
    {| RawRecord.Name := "external"; RawRecord.Records := [host_record "203.0.113.9"] |} ].

(** Both documents are served from YAML files that decode as above. *)
Definition scenario_sources : Sources.t :=
  {| Sources.yamlClients := fun _ => (scenario_clients, None);
     Sources.httpClients := fun _ => ([], Some "unused");
     Sources.yamlRecords := fun _ => (scenario_records, None);
     Sources.httpRecords := fun _ => ([], Some "unused") |}.

(** Both files unreadable: [ioutil.ReadFile] fails, nothing is decoded. *)
Definition failing_sources : Sources.t :=
  {| Sources.yamlClients := fun _ => ([], Some "open clients.yaml: no such file or directory");
     Sources.httpClients := fun _ => ([], Some "connection refused");
     Sources.yamlRecords := fun _ => ([], Some "open records.yaml: no such file or directory");
     Sources.httpRecords := fun _ => ([], Some "connection refused") |}.

(** The plugin value after [parse]: nothing loaded yet. *)
Definition views0 : Views.t :=
  {| Views.Client := "clients.yaml"; Views.Record' := "records.yaml";
     Views.ClientSchema := SchemaYAML; Views.RecordSchema := SchemaYAML;
     Views.ClientACLs := []; Views.ClientZones := ∅ |}.

(** The plugin value after the startup load of the scenario. *)
Definition views_loaded : Views.t := fst (loadConfig ParseCIDR4 scenario_sources views0).

(* ------------------------------------------------------------------ *)
(** ** The loader's loops *)

Section LoadLemmas.

Variable ParseCIDR : string -> option IPNet.t.

Lemma parse_cidrs_fold_fst name cidrs acc :
  fst (fold_left (step_cidr ParseCIDR name) cidrs acc) = fst acc ++ omap ParseCIDR cidrs.
Proof.
  revert acc; induction cidrs as [|c cs IH]; intros [nets logs]; simpl.
  - by rewrite app_nil_r.
  - cbn [step_cidr]. destruct (ParseCIDR c) eqn:E; rewrite IH; simpl.
    + by rewrite <- app_assoc.
    + done.
Qed.

Lemma parse_cidrs_fst name cidrs :
  fst (parse_cidrs ParseCIDR name cidrs) = omap ParseCIDR cidrs.
Proof. unfold parse_cidrs. by rewrite parse_cidrs_fold_fst. Qed.

Lemma build_acls_fold_fst rawClients acc :
  fst (fold_left (step_client ParseCIDR) rawClients acc) = fst acc ++ map (acl_of ParseCIDR) rawClients.
Proof.
  revert acc; induction rawClients as [|c cs IH]; intros [acls logs]; simpl.
  - by rewrite app_nil_r.
  - cbn [step_client].
    destruct (parse_cidrs ParseCIDR (RawClientACL.Name c) (RawClientACL.CIDRPrefixes c))
      as [nets ws] eqn:E.
    rewrite IH; simpl. rewrite <- app_assoc. unfold acl_of. rewrite E. done.
Qed.

Lemma build_acls_fst rawClients :
  fst (build_acls ParseCIDR rawClients) = map (acl_of ParseCIDR) rawClients.
Proof. unfold build_acls. by rewrite build_acls_fold_fst. Qed.

Lemma acl_of_nets client :
  ClientACL.CIDRNets (acl_of ParseCIDR client) = omap ParseCIDR (RawClientACL.CIDRPrefixes client).
Proof. unfold acl_of; simpl. apply parse_cidrs_fst. Qed.

Lemma loadConfig_acls src v :
  Views.ClientACLs (fst (loadConfig ParseCIDR src v)) = map (acl_of ParseCIDR) (fetch_clients src v).1.
Proof.
  unfold loadConfig.
  destruct (fetch_clients src v) as [rawClients errC].
  destruct (fetch_records src v errC) as [rawRecords errR].
  cbn [fst]. rewrite <- (build_acls_fst rawClients).
  destruct (build_acls ParseCIDR rawClients) as [acls ws]; done.
Qed.

Lemma loadConfig_zones src v :
  Views.ClientZones (fst (loadConfig ParseCIDR src v)) =
    build_client_zones (fetch_records src v (fetch_clients src v).2).1.
Proof.
  unfold loadConfig.
  destruct (fetch_clients src v) as [rawClients errC]. cbn [fst snd].
  destruct (fetch_records src v errC) as [rawRecords errR].
  destruct (build_acls ParseCIDR rawClients) as [acls ws]; done.
Qed.

Lemma loadConfig_logs src v :
  ∃ ws, snd (loadConfig ParseCIDR src v) =
    log_err (fetch_clients src v).2 ++ log_err (fetch_records src v (fetch_clients src v).2).2 ++ ws.
Proof.
  unfold loadConfig.
  destruct (fetch_clients src v) as [rawClients errC]. cbn [fst snd].
  destruct (fetch_records src v errC) as [rawRecords errR].
  destruct (build_acls ParseCIDR rawClients) as [acls ws]; eauto.
Qed.

End LoadLemmas.

Lemma build_zones_fold_names records zs :
  Zones.Names (fold_left add_record records zs) =
    Zones.Names zs ++ map (fun r => Zone.Name (zone_of_raw r)) records.
Proof.
  revert zs; induction records as [|r rs IH]; intros zs; simpl.
  - by rewrite app_nil_r.
  - rewrite IH; simpl. by rewrite <- app_assoc.
Qed.

Lemma build_zones_fold_lookup records zs k :
  Zones.Z (fold_left add_record records zs) !! k =
    match last (filter (fun z => Zone.Name z = k) (map zone_of_raw records)) with
    | Some z => Some z
    | None => Zones.Z zs !! k
    end.
Proof.
  revert zs; induction records as [|r rs IH] using rev_ind; intros zs; simpl.
  - done.
  - rewrite fold_left_app; simpl. rewrite map_app, filter_app; simpl.
    unfold add_record at 1; simpl.
    rewrite filter_cons. destruct (decide (Zone.Name (zone_of_raw r) = k)) as [E|E].
    + rewrite last_app; simpl. subst k. by rewrite lookup_insert_eq.
    + rewrite app_nil_r, lookup_insert_ne by done. apply IH.
Qed.

Lemma build_zones_lookup records k :
  Zones.Z (build_zones records) !! k =
    last (filter (fun z => Zone.Name z = k) (map zone_of_raw records)).
Proof.
  unfold build_zones. rewrite build_zones_fold_lookup.
  destruct (last _); done.
Qed.

Lemma build_zones_names records :
  Zones.Names (build_zones records) = map (fun r => Host_Normalize (RawRecordEntry.Name r)) records.
Proof. unfold build_zones. by rewrite build_zones_fold_names. Qed.

Lemma build_zones_fold_dom records zs :
  dom (Zones.Z (fold_left add_record records zs)) =
    dom (Zones.Z zs) ∪ list_to_set (map (fun r => Zone.Name (zone_of_raw r)) records).
Proof.
  revert zs; induction records as [|r rs IH]; intros zs; simpl.
  - set_solver.
  - rewrite IH; simpl. rewrite dom_insert_L. set_solver.
Qed.

Section WarnLemmas.

Variable ParseCIDR : string -> option IPNet.t.

Lemma parse_cidrs_fold_snd name cidrs acc :
  snd (fold_left (step_cidr ParseCIDR name) cidrs acc) =
    snd acc ++ map (LogWarningInvalidCIDR name) (filter (fun c => ParseCIDR c = None) cidrs).
Proof.
  revert acc; induction cidrs as [|c cs IH]; intros [nets logs]; simpl.
  - by rewrite app_nil_r.
  - cbn [step_cidr]. rewrite filter_cons.
    destruct (ParseCIDR c) eqn:E; rewrite IH; case_decide; try done; simpl.
    by rewrite <- app_assoc.
Qed.

Lemma build_acls_fold_snd rawClients acc :
  snd (fold_left (step_client ParseCIDR) rawClients acc) =
    snd acc ++ concat (map (fun c => snd (parse_cidrs ParseCIDR (RawClientACL.Name c)
                                            (RawClientACL.CIDRPrefixes c))) rawClients).
Proof.
  revert acc; induction rawClients as [|c cs IH]; intros [acls logs]; simpl.
  - by rewrite app_nil_r.
  - cbn [step_client].
    destruct (parse_cidrs ParseCIDR (RawClientACL.Name c) (RawClientACL.CIDRPrefixes c))
      as [nets ws] eqn:E.
    rewrite IH; simpl. by rewrite <- app_assoc.
Qed.

End WarnLemmas.

Lemma last_cons_default {A} (x d : A) (l : list A) :
  List.last (x :: l) d = List.last l x.
Proof.
  revert x d; induction l as [|y l IH]; intros x d; [done|].
  change (List.last (y :: l) d = List.last (y :: l) x). by rewrite (IH y d), (IH y x).
Qed.

Lemma trace_acls_last ParseCIDR v rawClients :
  List.last (trace_acls ParseCIDR v rawClients) v =
    with_acls v (Views.ClientACLs v ++ map (acl_of ParseCIDR) rawClients).
Proof.
  revert v; induction rawClients as [|c cs IH]; intros v; cbn [trace_acls map].
  - rewrite app_nil_r. by destruct v.
  - rewrite last_cons_default, IH. simpl. by rewrite <- app_assoc.
Qed.

Definition insert_record_set (m : gmap string Zones.t) (r : RawRecord.t) : gmap string Zones.t :=
  <[RawRecord.Name r := build_zones (RawRecord.Records r)]> m.

Lemma trace_zones_last v rawRecords :
  List.last (trace_zones v rawRecords) v =
    with_zones v (fold_left insert_record_set rawRecords (Views.ClientZones v)).
Proof.
  revert v; induction rawRecords as [|r rs IH]; intros v; cbn [trace_zones fold_left].
  - by destruct v.
  - rewrite last_cons_default, IH. done.
Qed.

Lemma last_app_cons {A} (l1 l2 : list A) (x d : A) :
  List.last (l1 ++ x :: l2) d = List.last l2 x.
Proof.
  induction l1 as [|y l1 IH]; simpl.
  - apply last_cons_default.
  - rewrite <- IH. destruct (l1 ++ x :: l2) eqn:E; [by destruct l1|done].
Qed.

Lemma in_last_or_default {A} (l : list A) (d : A) :
  List.last l d ∈ d :: l.
Proof.
  induction l as [|x l IH] using rev_ind.
  - simpl. constructor.
  - rewrite List.last_last. apply elem_of_cons; right. apply elem_of_app; right. constructor.
Qed.

(* ------------------------------------------------------------------ *)
(** ** C1: a failed refresh *)

(** C1 (amended): a failed refresh does not keep the previous
    configuration.  Whatever the previous plugin value, [loadConfig] logs
    each fetch/parse error and then replaces [ClientACLs] and [ClientZones]
    with what it builds from the raw data the fetch calls left behind; a
    source that fails before decoding anything yields an empty part. *)
Theorem loadConfig_failed_refresh_rebuilds
  (ParseCIDR : string -> option IPNet.t) (src : Sources.t) (v : Views.t) :
  Views.ClientACLs (fst (loadConfig ParseCIDR src v)) =
    map (acl_of ParseCIDR) (fetch_clients src v).1 /\
  Views.ClientZones (fst (loadConfig ParseCIDR src v)) =
    build_client_zones (fetch_records src v (fetch_clients src v).2).1 /\
  (forall e, (fetch_clients src v).2 = Some e ->
     LogError e ∈ snd (loadConfig ParseCIDR src v)) /\
  (forall e, (fetch_records src v (fetch_clients src v).2).2 = Some e ->
     LogError e ∈ snd (loadConfig ParseCIDR src v)) /\
  (forall e, fetch_clients src v = ([], Some e) ->
     Views.ClientACLs (fst (loadConfig ParseCIDR src v)) = []) /\
  (forall e, (fetch_records src v (fetch_clients src v).2) = ([], Some e) ->
     Views.ClientZones (fst (loadConfig ParseCIDR src v)) = ∅).
Proof.
  destruct (loadConfig_logs ParseCIDR src v) as [ws Hlog].
  repeat split.
  - apply loadConfig_acls.
  - apply loadConfig_zones.
  - intros e He. rewrite Hlog, He. simpl. constructor.
  - intros e He. rewrite Hlog, He. simpl.
    apply elem_of_app; right. constructor.
  - intros e He. rewrite loadConfig_acls, He. done.
  - intros e He. rewrite loadConfig_zones, He. done.
Qed.

Lemma loadConfig_failed_refresh_rebuilds_witness :
  fetch_clients failing_sources views_loaded = ([], Some "open clients.yaml: no such file or directory") /\
  Views.ClientACLs (fst (loadConfig ParseCIDR4 failing_sources views_loaded)) = [] /\
  fetch_records failing_sources views_loaded (fetch_clients failing_sources views_loaded).2 =
    ([], Some "open records.yaml: no such file or directory") /\
  Views.ClientZones (fst (loadConfig ParseCIDR4 failing_sources views_loaded)) = ∅ /\
  LogError "open records.yaml: no such file or directory"
    ∈ snd (loadConfig ParseCIDR4 failing_sources views_loaded).
Proof.
  destruct (loadConfig_failed_refresh_rebuilds ParseCIDR4 failing_sources views_loaded)
    as (_ & _ & _ & Hr & Hc & Hz).
  split; [reflexivity|]. split; [apply (Hc _ eq_refl)|].
  split; [reflexivity|]. split; [apply (Hz _ eq_refl)|].
  apply Hr. reflexivity.
Defined.

(** C1 fails as stated: with both files unreadable, the scenario's
    configuration, which answered [host.example.com] for [10.5.5.5]
    before the refresh, is gone after it. *)
Lemma loadConfig_failed_refresh_counterexample :
  Views.ClientACLs (fst (loadConfig ParseCIDR4 failing_sources views_loaded))
    <> Views.ClientACLs views_loaded /\
  resolve Contains4 views_loaded [10; 5; 5; 5]%Z "host.example.com" TypeA
    = Answer TypeA 300 "10.1.2.3." /\
  resolve Contains4 (fst (loadConfig ParseCIDR4 failing_sources views_loaded))
    [10; 5; 5; 5]%Z "host.example.com" TypeA = Decline.
Proof.
  split; [vm_compute; discriminate|]. split; vm_compute; reflexivity.
Qed.

(* ------------------------------------------------------------------ *)
(** ** C2: publication is in place *)

Lemma build_client_zones_fold rawRecords :
  build_client_zones rawRecords = fold_left insert_record_set rawRecords ∅.
Proof. reflexivity. Qed.

(** C2 (amended): [loadConfig] updates the shared plugin value in place.
    Its successive writes are the reset of [ClientACLs] to the empty
    list, one append per group, the reset of [ClientZones] to an empty
    map and one insertion per record set; the last state written is the
    loaded configuration, and among the states a concurrent query can
    observe are the one with no groups and the previous record sets, and
    the one with the new groups and the previous record sets. *)
Theorem loadConfig_publishes_in_place
  (ParseCIDR : string -> option IPNet.t) (src : Sources.t) (v : Views.t) :
  List.last (loadConfig_trace ParseCIDR src v) v = fst (loadConfig ParseCIDR src v) /\
  with_acls v [] ∈ loadConfig_trace ParseCIDR src v /\
  with_acls v (Views.ClientACLs (fst (loadConfig ParseCIDR src v)))
    ∈ loadConfig_trace ParseCIDR src v.
Proof.
  rewrite loadConfig_acls.
  unfold loadConfig_trace, loadConfig.
  destruct (fetch_clients src v) as [rawClients errC]. cbn [fst snd].
  destruct (fetch_records src v errC) as [rawRecords errR].
  pose proof (build_acls_fst ParseCIDR rawClients) as Hacls.
  destruct (build_acls ParseCIDR rawClients) as [acls ws]. cbn [fst] in Hacls |- *.
  pose proof (trace_acls_last ParseCIDR (with_acls v []) rawClients) as Hla.
  cbn [Views.ClientACLs with_acls app] in Hla.
  split; [|split].
  - rewrite last_cons_default, last_app_cons, trace_zones_last, Hla.
    cbn. subst acls. done.
  - constructor.
  - assert (Hin := in_last_or_default (trace_acls ParseCIDR (with_acls v []) rawClients)
                     (with_acls v [])).
    rewrite Hla in Hin. unfold with_acls in Hin |- *. cbn in Hin.
    apply elem_of_cons in Hin as [Hin|Hin].
    + rewrite Hin. constructor.
    + apply elem_of_cons; right. apply elem_of_app; left. exact Hin.
Qed.

(** C2 fails as stated: refreshing the loaded scenario with the same
    documents, the configuration before and after answers the query, but
    the first state written by [loadConfig] (no groups yet) declines it. *)
Lemma loadConfig_publishes_in_place_counterexample :
  head (loadConfig_trace ParseCIDR4 scenario_sources views_loaded) = Some (with_acls views_loaded []) /\
  resolve Contains4 views_loaded [10; 5; 5; 5]%Z "host.example.com" TypeA
    = Answer TypeA 300 "10.1.2.3." /\
  resolve Contains4 (fst (loadConfig ParseCIDR4 scenario_sources views_loaded))
    [10; 5; 5; 5]%Z "host.example.com" TypeA = Answer TypeA 300 "10.1.2.3." /\
  resolve Contains4 (with_acls views_loaded []) [10; 5; 5; 5]%Z "host.example.com" TypeA
    = Decline.
Proof. repeat split; vm_compute; reflexivity. Qed.

(* ------------------------------------------------------------------ *)
(** ** C3: first matching group in declared order *)

Section MatchLemmas.

Variable Contains : IPNet.t -> IP -> bool.

Definition group_contains (ip : IP) (acl : ClientACL.t) : Prop :=
  ∃ n, n ∈ ClientACL.CIDRNets acl /\ Contains n ip = true.

Lemma existsb_group_contains ip acl :
  existsb (fun n => Contains n ip) (ClientACL.CIDRNets acl) = true <-> group_contains ip acl.
Proof.
  unfold group_contains. rewrite existsb_exists.
  split; intros (n & Hn & Hc); exists n; split; try done; by apply list_elem_of_In.
Qed.

Lemma match_acl_None acls ip :
  match_acl Contains acls ip = None <-> ∀ acl, acl ∈ acls -> ¬ group_contains ip acl.
Proof.
  induction acls as [|a acls IH]; simpl.
  - split; [intros _ acl Hin; inversion Hin|done].
  - destruct (existsb _ _) eqn:E.
    + split; [done|]. intros H. exfalso. apply (H a); [constructor|].
      by apply existsb_group_contains.
    + rewrite IH. split.
      * intros H acl Hin. apply elem_of_cons in Hin as [->|Hin]; [|by apply H].
        intros Hc%existsb_group_contains. congruence.
      * intros H acl Hin. apply H. by apply elem_of_cons; right.
Qed.

Lemma match_acl_app_none l1 l2 ip :
  (∀ acl, acl ∈ l1 -> ¬ group_contains ip acl) ->
  match_acl Contains (l1 ++ l2) ip = match_acl Contains l2 ip.
Proof.
  induction l1 as [|a l1 IH]; intros H; simpl; [done|].
  destruct (existsb _ _) eqn:E.
  - exfalso. apply (H a); [constructor|]. by apply existsb_group_contains.
  - apply IH. intros acl Hin. apply H. by apply elem_of_cons; right.
Qed.

Lemma match_acl_Some acls ip name :
  match_acl Contains acls ip = Some name <->
  ∃ l1 g l2, acls = l1 ++ g :: l2 /\ ClientACL.Name g = name /\ group_contains ip g /\
             (∀ acl, acl ∈ l1 -> ¬ group_contains ip acl).
Proof.
  split.
  - induction acls as [|a acls IH]; simpl; [done|].
    destruct (existsb _ _) eqn:E.
    + intros [= <-]. exists [], a, acls. repeat split; [by apply existsb_group_contains|].
      intros acl Hin. inversion Hin.
    + intros (l1 & g & l2 & -> & Hn & Hg & Hl1)%IH.
      exists (a :: l1), g, l2. repeat split; try done.
      intros acl Hin. apply elem_of_cons in Hin as [->|Hin]; [|by apply Hl1].
      intros Hc%existsb_group_contains. congruence.
  - intros (l1 & g & l2 & -> & <- & Hg & Hl1).
    rewrite match_acl_app_none by done. simpl.
    apply existsb_group_contains in Hg. by rewrite Hg.
Qed.

End MatchLemmas.

Lemma omap_all_None {A B} (f : A -> option B) (l : list A) :
  (∀ x, x ∈ l -> f x = None) -> omap f l = [].
Proof.
  induction l as [|x l IH]; intros H; simpl; [done|].
  rewrite (H x) by constructor. apply IH. intros y Hy. apply H. by apply elem_of_cons; right.
Qed.

(** C3: [match] returns the name of the first group, in declared order,
    with a prefix containing the address: an earlier containing group
    wins over a later one; [None] exactly when no group contains it; a
    loaded group whose prefixes are all malformed has no networks and
    changes no match result. *)
Theorem match_acl_first_group
  (Contains : IPNet.t -> IP -> bool) (acls : list ClientACL.t) (ip : IP) :
  (∀ name, match_acl Contains acls ip = Some name <->
     ∃ l1 g l2, acls = l1 ++ g :: l2 /\ ClientACL.Name g = name /\
       group_contains Contains ip g /\ (∀ acl, acl ∈ l1 -> ¬ group_contains Contains ip acl)) /\
  (∀ l1 g1 l2 g2 l3, acls = l1 ++ g1 :: l2 ++ g2 :: l3 ->
     (∀ acl, acl ∈ l1 -> ¬ group_contains Contains ip acl) ->
     group_contains Contains ip g1 -> group_contains Contains ip g2 ->
     match_acl Contains acls ip = Some (ClientACL.Name g1)) /\
  (match_acl Contains acls ip = None <-> ∀ acl, acl ∈ acls -> ¬ group_contains Contains ip acl) /\
  (∀ (ParseCIDR : string -> option IPNet.t) l1 client l2,
     (∀ c, c ∈ RawClientACL.CIDRPrefixes client -> ParseCIDR c = None) ->
     ClientACL.CIDRNets (acl_of ParseCIDR client) = [] /\
     match_acl Contains (l1 ++ acl_of ParseCIDR client :: l2) ip = match_acl Contains (l1 ++ l2) ip).
Proof.
  split; [|split; [|split]].
  - intros name. apply match_acl_Some.
  - intros l1 g1 l2 g2 l3 -> Hl1 Hg1 _. apply match_acl_Some.
    exists l1, g1, (l2 ++ g2 :: l3). done.
  - apply match_acl_None.
  - intros ParseCIDR l1 client l2 Hbad.
    assert (Hn : ClientACL.CIDRNets (acl_of ParseCIDR client) = []).
    { rewrite acl_of_nets. by apply omap_all_None. }
    split; [done|].
    induction l1 as [|a l1 IH]; cbn [app match_acl].
    + rewrite Hn. done.
    + rewrite IH. done.
Qed.

(** A client in [10.0.0.0/8] is in both scenario groups; the first,
    [internal], is chosen; a scenario extended by a group [broken] with
    only a malformed prefix, placed first, matches the same way. *)
Lemma match_acl_first_group_witness :
  match_acl Contains4 (Views.ClientACLs views_loaded) [10; 5; 5; 5]%Z = Some "internal" /\
  match_acl Contains4
    (acl_of ParseCIDR4 {| RawClientACL.Name := "broken"; RawClientACL.CIDRPrefixes := ["10.0.0.300/8"] |}
      :: Views.ClientACLs views_loaded) [10; 5; 5; 5]%Z = Some "internal".
Proof.
  destruct (match_acl_first_group Contains4 (Views.ClientACLs views_loaded) [10; 5; 5; 5]%Z)
    as (_ & Hfirst & _ & Hbroken).
  split.
  - assert (H := Hfirst [] (acl_of ParseCIDR4 client_internal) []
                  (acl_of ParseCIDR4 client_external) []).
    rewrite H; clear H.
    + vm_compute. reflexivity.
    + vm_compute. reflexivity.
    + intros acl Hin. inversion Hin.
    + eexists. split; [vm_compute; constructor|vm_compute; reflexivity].
    + eexists. split; [vm_compute; constructor|vm_compute; reflexivity].
  - destruct (Hbroken ParseCIDR4 []
      {| RawClientACL.Name := "broken"; RawClientACL.CIDRPrefixes := ["10.0.0.300/8"] |}
      (Views.ClientACLs views_loaded)) as [_ Heq].
    + intros c Hc. apply list_elem_of_singleton in Hc as ->. vm_compute. reflexivity.
    + cbn [app] in Heq. rewrite Heq. vm_compute. reflexivity.
Defined.

(* ------------------------------------------------------------------ *)
(** ** C4: the causes of [Decline] *)

(** C4: [resolve] returns the one payload-free [Decline] when no group
    matches, when the matched group has no record set, when the
    normalised name is absent, or when the stored type is [UNKNOWN] or
    differs from the query type; for an address in no group it declines
    every query. *)
Theorem resolve_declines
  (Contains : IPNet.t -> IP -> bool) (v : Views.t) (ip : IP) (qname : string) (qtype : N) :
  (match_acl Contains (Views.ClientACLs v) ip = None ->
     resolve Contains v ip qname qtype = Decline) /\
  (∀ group, match_acl Contains (Views.ClientACLs v) ip = Some group ->
     Views.ClientZones v !! group = None ->
     resolve Contains v ip qname qtype = Decline) /\
  (∀ group zones, match_acl Contains (Views.ClientACLs v) ip = Some group ->
     Views.ClientZones v !! group = Some zones ->
     Zones.Z zones !! Host_Normalize qname = None ->
     resolve Contains v ip qname qtype = Decline) /\
  (∀ group zones rr, match_acl Contains (Views.ClientACLs v) ip = Some group ->
     Views.ClientZones v !! group = Some zones ->
     Zones.Z zones !! Host_Normalize qname = Some rr ->
     Zone.Type' rr <> qtype \/ Zone.Type' rr = TypeNone ->
     resolve Contains v ip qname qtype = Decline) /\
  ((∀ acl, acl ∈ Views.ClientACLs v -> ¬ group_contains Contains ip acl) ->
     ∀ qname' qtype', resolve Contains v ip qname' qtype' = Decline).
Proof.
  unfold resolve. split; [|split; [|split; [|split]]].
  - intros ->. done.
  - intros group -> ->. done.
  - intros group zones -> -> ->. done.
  - intros group zones rr -> -> -> Hty.
    destruct Hty as [Hty|Hty].
    + apply N.eqb_neq in Hty. rewrite Hty, orb_true_r. done.
    + rewrite Hty. done.
  - intros Hnone qname' qtype'. apply match_acl_None in Hnone. by rewrite Hnone.
Qed.

(** The scenario: an address outside [10.0.0.0/8] when only [internal]
    is configured, an unknown name, and a type mismatch. *)
Lemma resolve_declines_witness :
  resolve Contains4 (with_acls views_loaded [acl_of ParseCIDR4 client_internal])
    [198; 51; 100; 1]%Z "host.example.com" TypeA = Decline /\
  resolve Contains4 views_loaded [10; 5; 5; 5]%Z "nope.example.com" TypeA = Decline /\
  resolve Contains4 views_loaded [10; 5; 5; 5]%Z "host.example.com" TypeAAAA = Decline /\
  resolve Contains4 (with_zones views_loaded ∅) [10; 5; 5; 5]%Z "host.example.com" TypeA = Decline.
Proof.
  split; [|split; [|split]].
  - apply (resolve_declines Contains4 (with_acls views_loaded [acl_of ParseCIDR4 client_internal])
             [198; 51; 100; 1]%Z "host.example.com" TypeA).
    intros acl Hin. apply list_elem_of_singleton in Hin as ->.
    intros (n & Hn & Hc). vm_compute in Hn. apply list_elem_of_singleton in Hn as ->.
    vm_compute in Hc. discriminate.
  - apply (resolve_declines Contains4 views_loaded [10; 5; 5; 5]%Z "nope.example.com" TypeA)
      with (group := "internal") (zones := build_zones [host_record "10.1.2.3"]);
      vm_compute; reflexivity.
  - apply (resolve_declines Contains4 views_loaded [10; 5; 5; 5]%Z "host.example.com" TypeAAAA)
      with (group := "internal") (zones := build_zones [host_record "10.1.2.3"])
           (rr := zone_of_raw (host_record "10.1.2.3"));
      [vm_compute; reflexivity..|left; vm_compute; discriminate].
  - apply (resolve_declines Contains4 (with_zones views_loaded ∅) [10; 5; 5; 5]%Z "host.example.com" TypeA)
      with (group := "internal"); vm_compute; reflexivity.
Defined.

(* ------------------------------------------------------------------ *)
(** ** C5: last write wins per name *)

Lemma filter_all_false {A} (P : A -> Prop) `{∀ x, Decision (P x)} (l : list A) :
  (∀ x, x ∈ l -> ¬ P x) -> filter P l = [].
Proof.
  induction l as [|x l IH]; intros H'; [done|].
  rewrite filter_cons_False by (apply H'; constructor).
  apply IH. intros y Hy. apply H'. by apply elem_of_cons; right.
Qed.

(** C5: after [build_zones], the map holds at most one entry per
    normalised name, namely the last raw record with that normalised
    name; an entry followed by no later record of the same normalised
    name is the one stored. *)
Lemma build_zones_lookup_latest pre r post :
  (∀ r', r' ∈ post -> Host_Normalize (RawRecordEntry.Name r') <> Host_Normalize (RawRecordEntry.Name r)) ->
  Zones.Z (build_zones (pre ++ r :: post)) !! Host_Normalize (RawRecordEntry.Name r) = Some (zone_of_raw r).
Proof.
  intros Hpost.
  rewrite build_zones_lookup, map_app, filter_app. cbn [map].
  rewrite filter_cons_True by done.
  rewrite (filter_all_false _ (map zone_of_raw post)).
  - apply last_snoc.
  - intros z (r' & -> & Hr')%list_elem_of_fmap. by apply Hpost.
Qed.

Theorem build_zones_last_write_wins (records : list RawRecordEntry.t) :
  (∀ k, Zones.Z (build_zones records) !! k =
          last (filter (fun z => Zone.Name z = k) (map zone_of_raw records))) /\
  (∀ pre r post, records = pre ++ r :: post ->
     (∀ r', r' ∈ post -> Host_Normalize (RawRecordEntry.Name r') <> Host_Normalize (RawRecordEntry.Name r)) ->
     Zones.Z (build_zones records) !! Host_Normalize (RawRecordEntry.Name r) = Some (zone_of_raw r)).
Proof.
  split; [apply build_zones_lookup|].
  intros pre r post ->. apply build_zones_lookup_latest.
Qed.

(** Two entries for [host.example.com] in one record set: the later one
    is stored, and found by a query written in another case. *)
Lemma build_zones_last_write_wins_witness :
  Zones.Z (build_zones [host_record "10.1.2.3"; host_record "10.9.9.9"])
    !! Host_Normalize "HOST.example.com." = Some (zone_of_raw (host_record "10.9.9.9")).
Proof.
  refine (proj2 (build_zones_last_write_wins [host_record "10.1.2.3"; host_record "10.9.9.9"])
            [host_record "10.1.2.3"] (host_record "10.9.9.9") [] _ _).
  - reflexivity.
  - intros r' Hr'. inversion Hr'.
Defined.

(* ------------------------------------------------------------------ *)
(** ** C6: a malformed prefix is dropped alone *)

(** C6: a malformed CIDR string is dropped at the granularity of that
    prefix: the groups loaded with it are the groups loaded without it
    (so every match result is the same), the group holding it is still
    created with its other prefixes, and a warning names the group and
    the prefix. *)
Theorem malformed_cidr_dropped
  (ParseCIDR : string -> option IPNet.t) (Contains : IPNet.t -> IP -> bool)
  (cs1 cs2 : list RawClientACL.t) (name bad : string) (p1 p2 : list string) (ip : IP) :
  ParseCIDR bad = None ->
  fst (build_acls ParseCIDR (cs1 ++ RawClientACL.mk name (p1 ++ bad :: p2) :: cs2)) =
    fst (build_acls ParseCIDR (cs1 ++ RawClientACL.mk name (p1 ++ p2) :: cs2)) /\
  fst (build_acls ParseCIDR (cs1 ++ RawClientACL.mk name (p1 ++ bad :: p2) :: cs2)) !! length cs1 =
    Some (ClientACL.mk name (omap ParseCIDR (p1 ++ p2))) /\
  match_acl Contains (fst (build_acls ParseCIDR (cs1 ++ RawClientACL.mk name (p1 ++ bad :: p2) :: cs2))) ip =
    match_acl Contains (fst (build_acls ParseCIDR (cs1 ++ RawClientACL.mk name (p1 ++ p2) :: cs2))) ip /\
  LogWarningInvalidCIDR name bad ∈ snd (build_acls ParseCIDR (cs1 ++ RawClientACL.mk name (p1 ++ bad :: p2) :: cs2)).
Proof.
  intros Hbad.
  assert (Hacl : acl_of ParseCIDR (RawClientACL.mk name (p1 ++ bad :: p2)) =
                 ClientACL.mk name (omap ParseCIDR (p1 ++ p2))).
  { unfold acl_of. cbn [RawClientACL.Name RawClientACL.CIDRPrefixes]. rewrite parse_cidrs_fst.
    rewrite !omap_app. csimpl. rewrite Hbad. done. }
  assert (Hacl' : acl_of ParseCIDR (RawClientACL.mk name (p1 ++ p2)) =
                  ClientACL.mk name (omap ParseCIDR (p1 ++ p2))).
  { unfold acl_of. cbn [RawClientACL.Name RawClientACL.CIDRPrefixes]. by rewrite parse_cidrs_fst. }
  assert (Heq : fst (build_acls ParseCIDR (cs1 ++ RawClientACL.mk name (p1 ++ bad :: p2) :: cs2)) =
                fst (build_acls ParseCIDR (cs1 ++ RawClientACL.mk name (p1 ++ p2) :: cs2))).
  { rewrite !build_acls_fst, !map_app. cbn [map]. by rewrite Hacl, Hacl'. }
  split; [exact Heq|]. split; [|split; [by rewrite Heq|]].
  - rewrite build_acls_fst, map_app. cbn [map]. rewrite Hacl.
    apply list_lookup_middle. by rewrite length_map.
  - unfold build_acls. rewrite build_acls_fold_snd. cbn [snd app].
    apply list_elem_of_In, in_concat.
    exists (snd (parse_cidrs ParseCIDR name (p1 ++ bad :: p2))). split.
    + apply in_map_iff. exists (RawClientACL.mk name (p1 ++ bad :: p2)). split; [done|].
      apply in_or_app. right. left. done.
    + unfold parse_cidrs. rewrite parse_cidrs_fold_snd. cbn [snd app].
      apply in_map. apply list_elem_of_In, list_elem_of_filter. split; [done|].
      apply elem_of_app; right. constructor.
Qed.

(** The prefix [10.0.0.300/8] is malformed; the group [internal] keeps
    [10.0.0.0/8]. *)
Lemma malformed_cidr_dropped_witness :
  fst (build_acls ParseCIDR4 (RawClientACL.mk "internal" (["10.0.0.300/8"] ++ ["10.0.0.0/8"]) :: [client_external]))
    !! 0%nat = Some (ClientACL.mk "internal" (omap ParseCIDR4 ([] ++ ["10.0.0.0/8"]))) /\
  match_acl Contains4
    (fst (build_acls ParseCIDR4 ([] ++ RawClientACL.mk "internal" ([] ++ "10.0.0.300/8" :: ["10.0.0.0/8"]) :: [client_external])))
    [10; 5; 5; 5]%Z = Some "internal".
Proof.
  destruct (malformed_cidr_dropped ParseCIDR4 Contains4 [] [client_external] "internal" "10.0.0.300/8"
              [] ["10.0.0.0/8"] [10; 5; 5; 5]%Z) as (_ & Hlook & Hmatch & _).
  - vm_compute. reflexivity.
  - split; [exact Hlook|]. rewrite Hmatch. vm_compute. reflexivity.
Defined.

(* ------------------------------------------------------------------ *)
(** ** C8: record types *)

Lemma ascii_upper_lower c : ascii_upper (ascii_lower c) = ascii_upper c.
Proof. destruct c as [[] [] [] [] [] [] [] []]; reflexivity. Qed.

Lemma ToUpper_ToLower s : ToUpper (ToLower s) = ToUpper s.
Proof. induction s as [|c s IH]; simpl; [done|]. by rewrite ascii_upper_lower, IH. Qed.

Lemma resolve_answer_known_type (Contains : IPNet.t -> IP -> bool) v ip qname qtype ty ttl value :
  resolve Contains v ip qname qtype = Answer ty ttl value -> ty <> TypeNone.
Proof.
  unfold resolve.
  destruct (match_acl _ _ _); [|done].
  destruct (_ !! _) as [zones|]; [|done].
  destruct (_ !! _) as [rr|]; [|done].
  destruct (N.eqb_spec (Zone.Type' rr) TypeNone); [done|]. simpl.
  destruct (N.eqb _ _); simpl; [|done]. intros [= <- _ _]. done.
Qed.

Ltac type_cases :=
  unfold rrtype_of, TypeA, TypeAAAA, TypeCNAME, TypeTXT, TypeNone;
  repeat match goal with |- context [String.eqb ?a ?b] => destruct (String.eqb_spec a b) end.

(** C8: the type string is upper-cased and compared with exactly [A],
    [AAAA], [CNAME] and [TXT]; any other string gives [UNKNOWN] (0), and
    such a record is still stored under its name (when no later record
    of the same name replaces it), but [resolve] never answers with it. *)
Theorem record_type_case_insensitive (t : string) :
  (rrtype_of (ToUpper t) = TypeA <-> ToUpper t = "A") /\
  (rrtype_of (ToUpper t) = TypeAAAA <-> ToUpper t = "AAAA") /\
  (rrtype_of (ToUpper t) = TypeCNAME <-> ToUpper t = "CNAME") /\
  (rrtype_of (ToUpper t) = TypeTXT <-> ToUpper t = "TXT") /\
  (ToUpper t ∉ ["A"; "AAAA"; "CNAME"; "TXT"] -> rrtype_of (ToUpper t) = TypeNone) /\
  rrtype_of (ToUpper (ToLower t)) = rrtype_of (ToUpper t) /\
  (∀ pre r post, RawRecordEntry.Type' r = t -> ToUpper t ∉ ["A"; "AAAA"; "CNAME"; "TXT"] ->
     (∀ r', r' ∈ post -> Host_Normalize (RawRecordEntry.Name r') <> Host_Normalize (RawRecordEntry.Name r)) ->
     ∃ z, Zones.Z (build_zones (pre ++ r :: post)) !! Host_Normalize (RawRecordEntry.Name r) = Some z /\
          Zone.Type' z = TypeNone) /\
  (∀ (Contains : IPNet.t -> IP -> bool) v ip qname qtype ty ttl value,
     resolve Contains v ip qname qtype = Answer ty ttl value -> ty <> TypeNone).
Proof.
  assert (Hnone : ToUpper t ∉ ["A"; "AAAA"; "CNAME"; "TXT"] -> rrtype_of (ToUpper t) = TypeNone).
  { intros Hn. type_cases; try reflexivity; exfalso; apply Hn; rewrite e; set_solver. }
  split; [type_cases; split; intros; congruence|].
  split; [type_cases; split; intros; congruence|].
  split; [type_cases; split; intros; congruence|].
  split; [type_cases; split; intros; congruence|].
  split; [exact Hnone|].
  split; [by rewrite ToUpper_ToLower|].
  split; [|apply resolve_answer_known_type].
  intros pre r post <- Hn Hpost. exists (zone_of_raw r).
  split; [by apply build_zones_lookup_latest|].
  by apply Hnone.
Qed.

(** The type string [cname] is recognised; a record of type [srv] is
    stored with the [UNKNOWN] type. *)
Lemma record_type_case_insensitive_witness :
  rrtype_of (ToUpper "cname") = TypeCNAME /\
  (∃ z, Zones.Z (build_zones ([] ++ RawRecordEntry.mk "srv.example.com" 60 "srv" "target.example.com" :: []))
          !! Host_Normalize "srv.example.com" = Some z /\ Zone.Type' z = TypeNone).
Proof.
  destruct (record_type_case_insensitive "srv") as (_ & _ & _ & _ & _ & _ & Hstore & _).
  split; [reflexivity|].
  apply (Hstore [] (RawRecordEntry.mk "srv.example.com" 60 "srv" "target.example.com") []).
  - reflexivity.
  - vm_compute. intros Hin. repeat (apply elem_of_cons in Hin as [Hin|Hin]; [discriminate|]).
    inversion Hin.
  - intros r' Hr'. inversion Hr'.
Defined.

(* ------------------------------------------------------------------ *)
(** ** C9: stored values are normalised names *)

Definition txt_hello : RawRecordEntry.t :=
  RawRecordEntry.mk "greeting.example.com" 60 "TXT" "Hello World".

(** C9: every stored entry is the [Zone] of a raw record of the set, and
    its value is [plugin.Host(value).Normalize()] of the raw value,
    whatever the type; a TXT record ["Hello World"] is stored, and
    answered, as ["hello world."]. *)
Theorem loaded_value_normalized (records : list RawRecordEntry.t) :
  (∀ k z, Zones.Z (build_zones records) !! k = Some z ->
     ∃ r, r ∈ records /\ z = zone_of_raw r /\
          Zone.Value z = Host_Normalize (RawRecordEntry.Value r)) /\
  Zone.Value (zone_of_raw txt_hello) = "hello world." /\
  resolve Contains4 (with_zones views_loaded {[ "internal" := build_zones [txt_hello] ]})
    [10; 5; 5; 5]%Z "greeting.example.com" TypeTXT = Answer TypeTXT 60 "hello world.".
Proof.
  split; [|split; vm_compute; reflexivity].
  intros k z Hk. rewrite build_zones_lookup in Hk.
  apply last_Some_elem_of in Hk.
  apply list_elem_of_filter in Hk as [_ Hk].
  apply list_elem_of_fmap in Hk as (r & -> & Hr).
  exists r. done.
Qed.

Lemma loaded_value_normalized_witness :
  ∃ r, r ∈ [txt_hello] /\ Zone.Value (zone_of_raw txt_hello) = Host_Normalize (RawRecordEntry.Value r).
Proof.
  destruct (proj1 (loaded_value_normalized [txt_hello]) (Host_Normalize "greeting.example.com")
              (zone_of_raw txt_hello)) as (r & Hr & Hz & Hv).
  - vm_compute. reflexivity.
  - exists r. split; [exact Hr|]. rewrite <- Hv, Hz. reflexivity.
Defined.

(* ------------------------------------------------------------------ *)
(** ** C10: the ordered names keep duplicates *)

(** C10: [Zones.Names] has one element per raw record, in input order,
    duplicates included; the keys of [Zones.Z] are exactly these names;
    so a record set with a name twice has two names and one key. *)
Theorem names_one_per_record (records : list RawRecordEntry.t) :
  Zones.Names (build_zones records) = map (fun r => Host_Normalize (RawRecordEntry.Name r)) records /\
  dom (Zones.Z (build_zones records)) = list_to_set (Zones.Names (build_zones records)) /\
  (∀ r, Zones.Names (build_zones [r; r]) =
          [Host_Normalize (RawRecordEntry.Name r); Host_Normalize (RawRecordEntry.Name r)] /\
        size (Zones.Z (build_zones [r; r])) = 1%nat).
Proof.
  split; [apply build_zones_names|split].
  - unfold build_zones. rewrite build_zones_fold_dom, build_zones_fold_names. simpl.
    rewrite dom_empty_L. set_solver.
  - intros r. split; [reflexivity|].
    unfold build_zones; simpl. rewrite insert_insert_eq, insert_empty.
    apply map_size_singleton.
Qed.

(* ------------------------------------------------------------------ *)
(** ** C7: normalisation *)


Lemma string_length_append (a b : string) :
  String.length (String.append a b) = (String.length a + String.length b)%nat.
Proof. induction a as [|c a IH]; simpl; auto. Qed.

Lemma substring_full s : String.substring 0 (String.length s) s = s.
Proof. induction s as [|c s IH]; simpl; [done|]. by rewrite IH. Qed.

Lemma substring_split s n :
  (n <= String.length s)%nat ->
  s = String.append (String.substring 0 n s) (String.substring n (String.length s - n) s).
Proof.
  revert n; induction s as [|c s IH]; intros [|n] Hn; simpl in *.
  - done.
  - lia.
  - by rewrite substring_full.
  - change (String.append (String c ?x) ?y) with (String c (String.append x y)).
    f_equal. apply IH. lia.
Qed.

Lemma substring_append_l a b :
  String.substring 0 (String.length a) (String.append a b) = a.
Proof. induction a as [|c a IH]; simpl; [by destruct b|]. by rewrite IH. Qed.

Lemma substring_append_r a b :
  String.substring (String.length a) (String.length b) (String.append a b) = b.
Proof. induction a as [|c a IH]; simpl; [apply substring_full|done]. Qed.

Lemma HasPrefix_spec s p : HasPrefix s p = true <-> ∃ t, s = String.append p t.
Proof.
  unfold HasPrefix. rewrite andb_true_iff, Nat.leb_le, String.eqb_eq. split.
  - intros [Hl Hs]. pose proof (substring_split s _ Hl) as E. rewrite Hs in E. eauto.
  - intros [t ->]. split; [rewrite string_length_append; lia|]. apply substring_append_l.
Qed.

Lemma HasSuffix_spec s x : HasSuffix s x = true <-> ∃ t, s = String.append t x.
Proof.
  unfold HasSuffix. rewrite andb_true_iff, Nat.leb_le, String.eqb_eq. split.
  - intros [Hl Hs].
    pose proof (substring_split s (String.length s - String.length x) ltac:(lia)) as E.
    replace (String.length s - (String.length s - String.length x))%nat
      with (String.length x) in E by lia.
    rewrite Hs in E. eauto.
  - intros [t ->]. rewrite string_length_append. split; [lia|].
    replace (String.length t + String.length x - String.length x)%nat with (String.length t) by lia.
    apply substring_append_r.
Qed.

Ltac ascii_cases c := destruct c as [[] [] [] [] [] [] [] []]; reflexivity.

Lemma ascii_lower_idem c : ascii_lower (ascii_lower c) = ascii_lower c.
Proof. ascii_cases c. Qed.

Lemma ascii_lower_eqb_colon c : Ascii.eqb (ascii_lower c) ":"%char = Ascii.eqb c ":"%char.
Proof. ascii_cases c. Qed.

Lemma ascii_lower_eqb_colon' c : Ascii.eqb ":"%char (ascii_lower c) = Ascii.eqb ":"%char c.
Proof. ascii_cases c. Qed.

Lemma ascii_lower_eqb_dot c : Ascii.eqb (ascii_lower c) "."%char = Ascii.eqb c "."%char.
Proof. ascii_cases c. Qed.

Lemma ascii_lower_eqb_backslash c : Ascii.eqb (ascii_lower c) "\"%char = Ascii.eqb c "\"%char.
Proof. ascii_cases c. Qed.

Lemma ascii_lower_eqb_minus c : Ascii.eqb (ascii_lower c) "-"%char = Ascii.eqb c "-"%char.
Proof. ascii_cases c. Qed.

Lemma ascii_lower_eqb_plus c : Ascii.eqb (ascii_lower c) "+"%char = Ascii.eqb c "+"%char.
Proof. ascii_cases c. Qed.

Lemma ascii_lower_digit c : is_digit (ascii_lower c) = is_digit c.
Proof. ascii_cases c. Qed.

Lemma ascii_lower_digit_id c : is_digit c = true -> ascii_lower c = c.
Proof. destruct c as [[] [] [] [] [] [] [] []]; try reflexivity; discriminate. Qed.

Lemma ToLower_idem s : ToLower (ToLower s) = ToLower s.
Proof. induction s as [|c s IH]; simpl; [done|]. by rewrite ascii_lower_idem, IH. Qed.

Lemma ToLower_append a b : ToLower (String.append a b) = String.append (ToLower a) (ToLower b).
Proof. induction a as [|c a IH]; simpl; [done|]. by rewrite IH. Qed.

Lemma ToLower_length s : String.length (ToLower s) = String.length s.
Proof. induction s as [|c s IH]; simpl; [done|]. by rewrite IH. Qed.

Lemma ToLower_list s : list_ascii_of_string (ToLower s) = map ascii_lower (list_ascii_of_string s).
Proof. induction s as [|c s IH]; simpl; [done|]. by rewrite IH. Qed.

Lemma ToLower_substring i k s : substring i k (ToLower s) = ToLower (substring i k s).
Proof.
  revert i k; induction s as [|c s IH]; intros [|i] [|k]; simpl; try done; by rewrite IH.
Qed.

Lemma list_ascii_append a b :
  list_ascii_of_string (String.append a b) = list_ascii_of_string a ++ list_ascii_of_string b.
Proof. induction a as [|c a IH]; simpl; [done|]. by rewrite IH. Qed.

Lemma leading_backslashes_lower l :
  leading_backslashes (map ascii_lower l) = leading_backslashes l.
Proof.
  induction l as [|c l IH]; cbn [map leading_backslashes]; [done|].
  by rewrite ascii_lower_eqb_backslash, IH.
Qed.

Lemma IsFqdn_ToLower s : IsFqdn (ToLower s) = IsFqdn s.
Proof.
  unfold IsFqdn. rewrite ToLower_list, <- map_rev.
  destruct (rev (list_ascii_of_string s)) as [|c rest]; simpl; [done|].
  by rewrite ascii_lower_eqb_dot, leading_backslashes_lower.
Qed.

Lemma Fqdn_ToLower s : Fqdn (ToLower s) = ToLower (Fqdn s).
Proof.
  unfold Fqdn. rewrite IsFqdn_ToLower.
  destruct (IsFqdn s); [done|]. by rewrite ToLower_append.
Qed.

Lemma Name_Normalize_ToLower s : Name_Normalize (ToLower s) = Name_Normalize s.
Proof. unfold Name_Normalize. by rewrite Fqdn_ToLower, ToLower_idem. Qed.

Lemma LastIndex_ToLower s : LastIndex ":"%char (ToLower s) = LastIndex ":"%char s.
Proof.
  induction s as [|c s IH]; cbn [LastIndex ToLower]; [done|]. by rewrite IH, ascii_lower_eqb_colon'.
Qed.

Lemma digits_value_ToLower s acc : digits_value (ToLower s) acc = digits_value s acc.
Proof.
  revert acc; induction s as [|c s IH]; intros acc; cbn [ToLower digits_value]; [done|].
  rewrite ascii_lower_digit. destruct (is_digit c) eqn:E; [|done].
  rewrite ascii_lower_digit_id by done. apply IH.
Qed.

Lemma Atoi_ok_ToLower s : Atoi_ok (ToLower s) = Atoi_ok s.
Proof.
  unfold Atoi_ok. destruct s as [|c r]; [done|]. cbn [ToLower].
  rewrite ascii_lower_eqb_minus, ascii_lower_eqb_plus.
  destruct (Ascii.eqb c "-"%char); [|destruct (Ascii.eqb c "+"%char)].
  - destruct r; [done|]. cbn [ToLower].
    change (String (ascii_lower a) (ToLower r)) with (ToLower (String a r)).
    by rewrite digits_value_ToLower.
  - destruct r; [done|]. cbn [ToLower].
    change (String (ascii_lower a) (ToLower r)) with (ToLower (String a r)).
    by rewrite digits_value_ToLower.
  - change (String (ascii_lower c) (ToLower r)) with (ToLower (String c r)).
    by rewrite digits_value_ToLower.
Qed.

Lemma LastIndex_no_colon s : has_colon s = false -> LastIndex ":"%char s = None.
Proof.
  unfold has_colon. induction s as [|c s IH]; cbn [LastIndex list_ascii_of_string existsb]; [done|].
  intros [Hc Hs]%orb_false_iff. rewrite IH by done.
  rewrite Ascii.eqb_sym, Hc. done.
Qed.

Lemma has_colon_append_dot s : has_colon (String.append s ".") = has_colon s.
Proof.
  unfold has_colon. rewrite list_ascii_append, existsb_app. simpl. by rewrite orb_false_r.
Qed.

Lemma has_colon_ToLower s : has_colon (ToLower s) = has_colon s.
Proof.
  unfold has_colon. rewrite ToLower_list.
  induction (list_ascii_of_string s) as [|c l IH]; cbn [map existsb]; [done|].
  by rewrite ascii_lower_eqb_colon, IH.
Qed.

Lemma has_colon_Fqdn s : has_colon (Fqdn s) = has_colon s.
Proof. unfold Fqdn. destruct (IsFqdn s); [done|]. apply has_colon_append_dot. Qed.

Lemma IsFqdn_append_dot s : IsFqdn (String.append s ".") = Nat.even (trailing_backslashes s).
Proof.
  unfold IsFqdn, trailing_backslashes. rewrite list_ascii_append. simpl.
  by rewrite rev_app_distr.
Qed.

Lemma IsFqdn_Fqdn s : Nat.even (trailing_backslashes s) = true -> IsFqdn (Fqdn s) = true.
Proof.
  intros H. unfold Fqdn. destruct (IsFqdn s) eqn:E; [done|]. by rewrite IsFqdn_append_dot.
Qed.

Lemma has_colon_append a b : has_colon (String.append a b) = has_colon a || has_colon b.
Proof. unfold has_colon. by rewrite list_ascii_append, existsb_app. Qed.

Lemma ascii_lower_eqb_zero c : Ascii.eqb (ascii_lower c) "0"%char = Ascii.eqb c "0"%char.
Proof. ascii_cases c. Qed.

Lemma port_cut_ToLower s : port_cut (ToLower s) = ToLower <$> port_cut s.
Proof.
  unfold port_cut. rewrite LastIndex_ToLower, ToLower_length.
  destruct (LastIndex _ s) as [i|].
  - destruct (_ =? _)%Z; [done|].
    rewrite ToLower_substring, Atoi_ok_ToLower.
    destruct (Atoi_ok _); simpl; by rewrite ?ToLower_substring.
  - by destruct (_ =? _)%Z.
Qed.

Lemma invalid_cidr_start_ToLower s : invalid_cidr_start (ToLower s) = invalid_cidr_start s.
Proof.
  destruct s as [|c r]; [done|]. unfold invalid_cidr_start. cbn [ToLower].
  rewrite ascii_lower_eqb_colon, ascii_lower_eqb_zero.
  change (String (ascii_lower c) (ToLower r)) with (ToLower (String c r)).
  by rewrite has_colon_ToLower.
Qed.

Lemma HasPrefix_ToLower s p :
  HasPrefix s p = true -> ToLower p = p -> HasPrefix (ToLower s) p = true.
Proof.
  rewrite !HasPrefix_spec. intros [t ->] Hp. exists (ToLower t).
  by rewrite ToLower_append, Hp.
Qed.

Lemma transport_free_ToLower s : transport_free (ToLower s) = true -> transport_free s = true.
Proof.
  unfold transport_free. rewrite !negb_true_iff, !orb_false_iff.
  intros [[[H1 H2] H3] H4].
  repeat split; apply not_true_iff_false; intros Hs;
    apply HasPrefix_ToLower in Hs; first [reflexivity | congruence].
Qed.

Lemma no_prefix_of_colon s p : has_colon s = false -> has_colon p = true -> HasPrefix s p = false.
Proof.
  intros Hs Hp. destruct (HasPrefix s p) eqn:E; [|done].
  apply HasPrefix_spec in E as [t ->]. by rewrite has_colon_append, Hp in Hs.
Qed.

Lemma has_colon_transport_free s : has_colon s = false -> transport_free s = true.
Proof.
  intros Hs. unfold transport_free.
  by rewrite !(no_prefix_of_colon s) by (done || reflexivity).
Qed.

Lemma Transport_free s : transport_free s = true -> Transport s = ("dns", s).
Proof.
  unfold transport_free, Transport.
  destruct (HasPrefix s "tls://"), (HasPrefix s "dns://"), (HasPrefix s "grpc://"),
    (HasPrefix s "https://"); done.
Qed.

Lemma port_cut_no_colon n : n <> "" -> has_colon n = false -> port_cut n = Some n.
Proof.
  intros Hn Hc. unfold port_cut. rewrite LastIndex_no_colon by done.
  destruct n as [|c r]; [done|]. cbn [String.length].
  destruct (Z.eqb_spec (-1) (Z.of_nat (S (String.length r)) - 1)); [lia|done].
Qed.

Lemma Fqdn_nonempty s : s <> "" -> Fqdn s <> "".
Proof. unfold Fqdn. destruct (IsFqdn s); [done|]. destruct s; done. Qed.

Lemma Fqdn_length s : (String.length (Fqdn s) <= S (String.length s))%nat.
Proof.
  unfold Fqdn. destruct (IsFqdn s); [lia|]. rewrite string_length_append. simpl. lia.
Qed.

Lemma ToLower_nonempty s : s <> "" -> ToLower s <> "".
Proof. destruct s; done. Qed.

Lemma append_dot_nonempty s : String.append s "." <> "".
Proof. destruct s; done. Qed.

Lemma Fqdn_idem s : Nat.even (trailing_backslashes s) = true -> Fqdn (Fqdn s) = Fqdn s.
Proof. intros H. unfold Fqdn at 1. by rewrite IsFqdn_Fqdn. Qed.

Lemma Host_Normalize_with_empty lib : Host_Normalize_with lib "" = "".
Proof. reflexivity. Qed.

Section HostNormalize.
Variable lib : HostLib.t.
Hypothesis Hlib : lib_facts lib.

Lemma Host_Normalize_with_ToLower s :
  transport_free (ToLower s) = true -> Host_Normalize_with lib (ToLower s) = Host_Normalize_with lib s.
Proof.
  intros Ht. unfold Host_Normalize_with.
  rewrite (Transport_free _ Ht), (Transport_free s (transport_free_ToLower s Ht)).
  cbv beta iota. unfold SplitHostPort. rewrite port_cut_ToLower.
  destruct (port_cut s) as [h|]; cbn [fmap option_fmap option_map]; [|done].
  rewrite ToLower_length, (idn_lower _ Hlib), (cidr_lower _ Hlib).
  destruct (255 <? String.length h)%nat; [done|].
  destruct (HostLib.IsDomainName lib h); [|done]. cbn [negb].
  destruct (HostLib.ParseCIDR lib h).
  - rewrite invalid_cidr_start_ToLower. by destruct (invalid_cidr_start h).
  - apply Name_Normalize_ToLower.
Qed.

Lemma Host_Normalize_with_plain n :
  n <> "" -> has_colon n = false -> (String.length n <= 255)%nat -> HostLib.ParseCIDR lib n = None ->
  Host_Normalize_with lib n = if HostLib.IsDomainName lib n then Name_Normalize n else "".
Proof.
  intros Hn Hc Hl Hp. unfold Host_Normalize_with.
  rewrite Transport_free by (by apply has_colon_transport_free).
  cbv beta iota. unfold SplitHostPort. rewrite port_cut_no_colon by done.
  destruct (Nat.ltb_spec 255 (String.length n)); [lia|]. rewrite Hp.
  by destruct (HostLib.IsDomainName lib n).
Qed.

Lemma Host_Normalize_with_idem n :
  plain_name lib n -> Host_Normalize_with lib (Host_Normalize_with lib n) = Host_Normalize_with lib n.
Proof.
  intros (Hn & Hc & Hl & Hb & Hp).
  rewrite (Host_Normalize_with_plain n) by (done || lia).
  destruct (HostLib.IsDomainName lib n) eqn:Ed; [|apply Host_Normalize_with_empty].
  unfold Name_Normalize. rewrite (Host_Normalize_with_plain (ToLower (Fqdn n))).
  - rewrite (idn_lower _ Hlib), (idn_fqdn _ Hlib), Ed by done.
    unfold Name_Normalize. by rewrite Fqdn_ToLower, Fqdn_idem, ToLower_idem.
  - by apply ToLower_nonempty, Fqdn_nonempty.
  - by rewrite has_colon_ToLower, has_colon_Fqdn.
  - rewrite ToLower_length. pose proof (Fqdn_length n). lia.
  - rewrite (cidr_lower _ Hlib). unfold Fqdn. destruct (IsFqdn n); [done|].
    apply (cidr_dot _ Hlib).
Qed.

Lemma Host_Normalize_with_trailing_dot n :
  plain_name lib n -> IsFqdn n = false ->
  Host_Normalize_with lib (String.append n ".") = Host_Normalize_with lib n.
Proof.
  intros (Hn & Hc & Hl & Hb & Hp) Hf.
  rewrite (Host_Normalize_with_plain (String.append n ".")), (Host_Normalize_with_plain n).
  - assert (E : Fqdn n = String.append n ".") by (unfold Fqdn; by rewrite Hf).
    rewrite <- E, (idn_fqdn _ Hlib) by done.
    unfold Name_Normalize. by rewrite Fqdn_idem.
  - done.
  - done.
  - lia.
  - done.
  - apply append_dot_nonempty.
  - by rewrite has_colon_append_dot.
  - rewrite string_length_append. simpl. lia.
  - apply (cidr_dot _ Hlib).
Qed.

End HostNormalize.

Lemma ascii_lower_eqb_slash c : Ascii.eqb (ascii_lower c) "/"%char = Ascii.eqb c "/"%char.
Proof. ascii_cases c. Qed.

Lemma domain_loop_lower len l i off begin w :
  domain_loop len (map ascii_lower l) i off begin w = domain_loop len l i off begin w.
Proof.
  remember (length l) as k eqn:Hk. assert (Hle : (length l <= k)%nat) by lia. clear Hk.
  revert l i off begin w Hle. induction k as [|k IH]; intros l i off begin w Hle.
  { destruct l; [done|simpl in Hle; lia]. }
  destruct l as [|c rest]; [done|]. simpl in Hle. cbn [map domain_loop].
  rewrite ascii_lower_eqb_backslash, ascii_lower_eqb_dot.
  destruct (Ascii.eqb c "\"%char).
  - destruct (256 <? off + 1)%nat; [done|].
    destruct rest as [|d1 [|d2 [|d3 rest']]]; cbn [map]; [done|done| |].
    + apply (IH [d2]). simpl in *. lia.
    + rewrite !ascii_lower_digit.
      destruct (is_digit d1 && is_digit d2 && is_digit d3);
        [apply (IH rest') | apply (IH (d2 :: d3 :: rest'))]; simpl in *; lia.
  - destruct (Ascii.eqb c "."%char).
    + destruct ((i =? 0)%nat && (1 <? len)%nat), w; try done.
      destruct (64 <=? i - begin)%nat; [done|].
      destruct (256 <? off + 1 + (i - begin))%nat; [done|].
      apply IH; lia.
    + apply IH; lia.
Qed.

Lemma IsDomainName_ToLower s : IsDomainName (ToLower s) = IsDomainName s.
Proof.
  destruct s as [|c r]; [done|].
  change (IsDomainName (ToLower (String c r)) = IsDomainName (String c r)).
  assert (E : ∀ s, s <> "" -> IsDomainName s =
            domain_loop (String.length (Fqdn s)) (list_ascii_of_string (Fqdn s)) 0 0 0 false).
  { intros [|? ?] Hs; done. }
  rewrite !E by (apply ToLower_nonempty || idtac; done).
  by rewrite Fqdn_ToLower, ToLower_length, ToLower_list, domain_loop_lower.
Qed.

Lemma IsDomainName_Fqdn s :
  s <> "" -> Nat.even (trailing_backslashes s) = true -> IsDomainName (Fqdn s) = IsDomainName s.
Proof.
  intros Hs Hb.
  assert (E : ∀ s, s <> "" -> IsDomainName s =
            domain_loop (String.length (Fqdn s)) (list_ascii_of_string (Fqdn s)) 0 0 0 false).
  { intros [|? ?] H; done. }
  rewrite !E by (done || by apply Fqdn_nonempty). by rewrite Fqdn_idem.
Qed.

Lemma split_on_ToLower sep s :
  (∀ c, Ascii.eqb (ascii_lower c) sep = Ascii.eqb c sep) ->
  split_on sep (ToLower s) = map ToLower (split_on sep s).
Proof.
  intros Hsep. induction s as [|c r IH]; [done|]. cbn [ToLower split_on].
  rewrite Hsep. destruct (Ascii.eqb c sep); [by rewrite IH|].
  rewrite IH. by destruct (split_on sep r).
Qed.

Lemma ipv4_field_ToLower s : ipv4_field (ToLower s) = ipv4_field s.
Proof.
  destruct s as [|c r]; [done|]. unfold ipv4_field.
  change (ToLower (String c r)) with (String (ascii_lower c) (ToLower r)).
  cbv beta iota. rewrite ascii_lower_eqb_zero.
  replace (String.eqb (ToLower r) "") with (String.eqb r "") by (by destruct r).
  change (String (ascii_lower c) (ToLower r)) with (ToLower (String c r)).
  by rewrite ToLower_length, digits_value_ToLower.
Qed.

Lemma mapM_ipv4_field_ToLower l : mapM ipv4_field (map ToLower l) = mapM ipv4_field l.
Proof. induction l as [|w l IH]; simpl; [done|]. by rewrite ipv4_field_ToLower, IH. Qed.

Lemma ParseCIDR4_ToLower s : ParseCIDR4 (ToLower s) = ParseCIDR4 s.
Proof.
  unfold ParseCIDR4. rewrite split_on_ToLower by apply ascii_lower_eqb_slash.
  destruct (split_on "/"%char s) as [|a [|b [|? ?]]]; cbn [map]; try done.
  rewrite split_on_ToLower by apply ascii_lower_eqb_dot.
  rewrite mapM_ipv4_field_ToLower, digits_value_ToLower.
  by replace (String.eqb (ToLower b) "") with (String.eqb b "") by (by destruct b).
Qed.

Lemma split_on_append_dot sep s :
  Ascii.eqb "."%char sep = false ->
  ∃ pre w, split_on sep (String.append s ".") = pre ++ [String.append w "."].
Proof.
  intros Hsep. induction s as [|c r IH].
  - exists [], "". change (split_on sep "." = ["."]). cbn [split_on]. by rewrite Hsep.
  - destruct IH as (pre & w & E).
    change (String.append (String c r) ".") with (String c (String.append r ".")).
    cbn [split_on]. rewrite E. destruct (Ascii.eqb c sep).
    + by exists ("" :: pre), w.
    + destruct pre as [|p pre].
      * by exists [], (String c w).
      * by exists (String c p :: pre), w.
Qed.

Lemma digits_value_append_dot w acc : digits_value (String.append w ".") acc = None.
Proof.
  revert acc; induction w as [|c w IH]; intros acc; [done|]. simpl.
  destruct (is_digit c); [apply IH|done].
Qed.

Lemma ParseCIDR4_append_dot s : ParseCIDR4 (String.append s ".") = None.
Proof.
  unfold ParseCIDR4. destruct (split_on_append_dot "/"%char s eq_refl) as (pre & w & ->).
  destruct pre as [|a [|b pre]]; cbn [app]; [done| |].
  - rewrite digits_value_append_dot. by destruct (mapM _ _).
  - by destruct pre.
Qed.

Lemma go_lib_facts : lib_facts go_lib.
Proof.
  split; cbn [HostLib.IsDomainName HostLib.ParseCIDR go_lib].
  - apply IsDomainName_ToLower.
  - apply IsDomainName_Fqdn.
  - apply ParseCIDR4_ToLower.
  - apply ParseCIDR4_append_dot.
Qed.




(* ------------------------------------------------------------------ *)
(** ** [schemaCheck] *)


(** [func schemaCheck(str string) (string, error)]. *)
Definition schemaCheck (str : string) : string * option string :=
  if HasPrefix str "http://" || HasPrefix str "https://" then (SchemaHTTP, None)
  else if HasSuffix str ".yaml" || HasSuffix str ".yml" then (SchemaYAML, None)
  else ("", Some (String.append "unknown schema: " str)).

(* ------------------------------------------------------------------ *)
(** ** [parse] *)

(** [defaultReloadInterval = 30 * time.Second], in nanoseconds (a
    [time.Duration]). *)
Definition defaultReloadInterval : Z := 30 * 1000000000.

(** One line of a [views { ... }] block as the Caddy dispenser yields it
    inside [for c.NextBlock()]: the directive [c.Val()] and the rest of
    the line, [c.RemainingArgs()].  The input of [parse] is the list of
    the blocks met by [for c.Next()]. *)
Definition Line := (string * list string)%type.

(** What a Go function returning [(T, error)] gives back here, with the
    run-time panic of an out-of-range index ([c.RemainingArgs()[0]] on a
    directive without argument). *)
Inductive Outcome (A : Type) :=
| Ok (a : A)
| Fail (err : string)
| Panic.
Arguments Ok {A} a.
Arguments Fail {A} err.
Arguments Panic {A}.

(** The local variables of [parse] ([client], [clientSchema], [record],
    [recordSchema], [err]) and the field [v.ReloadInterval]. *)
Module ParseState.
Record t := mk {
  client : string;
  clientSchema : string;
  record : string;
  recordSchema : string;
  err : option string;
  ReloadInterval : Z
}.
End ParseState.

(** [var (...)] and [v := Views{ReloadInterval: defaultReloadInterval, ...}]. *)
Definition parse_init : ParseState.t :=
  ParseState.mk "" "" "" "" None defaultReloadInterval.

Section Parse.

(** [time.ParseDuration] (Go standard library): the duration in
    nanoseconds and the error. *)
Variable ParseDuration : string -> Z * option string.

(** The [switch c.Val()] for one line. *)
Definition parse_line (st : ParseState.t) (line : Line) : Outcome ParseState.t :=
  let '(d, args) := line in
  if String.eqb d "client" then
    match args with
    | [] => Panic
    | client :: _ =>
        let '(clientSchema, err) := schemaCheck client in
        match err with
        | Some e => Fail e
        | None => Ok (ParseState.mk client clientSchema (ParseState.record st)
                       (ParseState.recordSchema st) err (ParseState.ReloadInterval st))
        end
    end
  else if String.eqb d "record" then
    match args with
    | [] => Panic
    | record :: _ =>
        let '(recordSchema, err) := schemaCheck record in
        match err with
        | Some e => Fail e
        | None => Ok (ParseState.mk (ParseState.client st) (ParseState.clientSchema st)
                       record recordSchema err (ParseState.ReloadInterval st))
        end
    end
  else if String.eqb d "reload" then
    match args with
    | [] => Panic
    | a :: _ =>
        (* [d, err := ...] declares a new [err], local to the case *)
        let '(dur, err') := ParseDuration a in
        match err' with
        | Some e => Fail e
        | None => Ok (ParseState.mk (ParseState.client st) (ParseState.clientSchema st)
                       (ParseState.record st) (ParseState.recordSchema st)
                       (ParseState.err st) dur)
        end
    end
  else Fail (String.append "unknown argument: " d).

(** [for c.NextBlock() { ... }]: stops at the first [return]. *)
Fixpoint parse_lines (st : ParseState.t) (lines : list Line) : Outcome ParseState.t :=
  match lines with
  | [] => Ok st
  | line :: rest =>
      match parse_line st line with
      | Ok st' => parse_lines st' rest
      | Fail e => Fail e
      | Panic => Panic
      end
  end.

(** [for c.Next() { ... }]. *)
Fixpoint parse_blocks (st : ParseState.t) (blocks : list (list Line)) : Outcome ParseState.t :=
  match blocks with
  | [] => Ok st
  | block :: rest =>
      match parse_lines st block with
      | Ok st' => parse_blocks st' rest
      | Fail e => Fail e
      | Panic => Panic
      end
  end.

(** [func parse(c *caddy.Controller)], returning a [*Views] and an error: the new plugin
    value and its [ReloadInterval]. *)
Definition parse (blocks : list (list Line)) : Outcome (Views.t * Z) :=
  match parse_blocks parse_init blocks with
  | Fail e => Fail e
  | Panic => Panic
  | Ok st =>
      match ParseState.err st with
      | Some e => Fail e
      | None =>
          if String.eqb (ParseState.client st) "" then
            Fail "required argument is missing: 'client'"
          else if String.eqb (ParseState.record st) "" then
            Fail "required argument is missing: 'record'"
          else Ok ({| Views.Client := ParseState.client st;
                      Views.Record' := ParseState.record st;
                      Views.ClientSchema := ParseState.clientSchema st;
                      Views.RecordSchema := ParseState.recordSchema st;
                      Views.ClientACLs := [];
                      Views.ClientZones := ∅ |},
                   ParseState.ReloadInterval st)
      end
  end.

End Parse.

(* ------------------------------------------------------------------ *)
(** ** [parseFromYAML], [parseFromHTTP] *)

(** [http.MethodGet] and the client's [Timeout: time.Duration(60) *
    time.Second], in nanoseconds. *)
Definition MethodGet : string := "GET".
Definition httpTimeout : Z := 60 * 1000000000.

Section Fetch.

(** The library calls, each giving its value or its error:
    [ioutil.ReadFile], [url.Parse] (with [u.String()] of the result),
    [http.NewRequest] (method, URL; no body), [client.Do] (with the
    client's timeout) and [ioutil.ReadAll] of the response body. *)
Context {Request Response : Type}.
Variable ReadFile : string -> list Byte.byte + string.
Variable UrlParse : string -> string + string.
Variable NewRequest : string -> string -> Request + string.
Variable Do : Z -> Request -> Response + string.
Variable ReadAll : Response -> list Byte.byte + string.

(** [yaml.Unmarshal] / [json.Unmarshal] into [out]: the value left in
    [out] (also on a decoding error) and the error. *)
Definition Unmarshal (A : Type) := list Byte.byte -> list A -> list A * option string.

(** [func parseFromYAML(filename string, out interface{}) error]: the
    value left in [*out] and the returned error. *)
Definition parseFromYAML {A} (unmarshal : Unmarshal A) (filename : string) (out : list A)
  : list A * option string :=
  match ReadFile filename with
  | inr err => (out, Some err)
  | inl file =>
      let '(out', err) := unmarshal file out in
      match err with
      | Some e => (out', Some e)
      | None => (out', None)
      end
  end.

(** [func parseFromHTTP(endpoint string, out interface{}) (err error)]. *)
Definition parseFromHTTP {A} (unmarshal : Unmarshal A) (endpoint : string) (out : list A)
  : list A * option string :=
  match UrlParse endpoint with
  | inr err => (out, Some err)
  | inl u =>
      match NewRequest MethodGet u with
      | inr err => (out, Some err)
      | inl req =>
          match Do httpTimeout req with
          | inr err => (out, Some err)
          | inl resp =>
              match ReadAll resp with
              | inr err => (out, Some err)
              | inl body => unmarshal body out
              end
          end
      end
  end.

(** The decoders of the four documents. *)
Variable yamlClientsDecode : Unmarshal RawClientACL.t.
Variable jsonClientsDecode : Unmarshal RawClientACL.t.
Variable yamlRecordsDecode : Unmarshal RawRecord.t.
Variable jsonRecordsDecode : Unmarshal RawRecord.t.

(** The calls [loadConfig] makes: [parseFromYAML(v.Client, &rawClients)]
    and the like, each with its output variable starting [nil]. *)
Definition sources_of : Sources.t :=
  {| Sources.yamlClients := fun f => parseFromYAML yamlClientsDecode f [];
     Sources.httpClients := fun e => parseFromHTTP jsonClientsDecode e [];
     Sources.yamlRecords := fun f => parseFromYAML yamlRecordsDecode f [];
     Sources.httpRecords := fun e => parseFromHTTP jsonRecordsDecode e [] |}.

End Fetch.

(* ------------------------------------------------------------------ *)
(** ** [reload] *)

(** The case taken by one round of the goroutine's [select]: a tick of
    [ticker.C], with the I/O the [loadConfig] call then sees, or the
    receive on the closed [reloadChan]. *)
Inductive Selected :=
| Ticked (src : Sources.t)
| Closed.

(** The [for { select { ... } }] loop of the goroutine started by
    [reload] (receiver [v *Views]), once its ticker exists: the plugin
    value when it returns (or after the given rounds) and what the loads
    logged. *)
Fixpoint reload_loop (ParseCIDR : string -> option IPNet.t) (v : Views.t) (rounds : list Selected)
  : Views.t * list LogEntry :=
  match rounds with
  | [] => (v, [])
  | Closed :: _ => (v, [])
  | Ticked src :: rest =>
      let '(v', l) := loadConfig ParseCIDR src v in
      let '(v'', l') := reload_loop ParseCIDR v' rest in
      (v'', l ++ l')
  end.

(** The goroutine started by [reload]: [ticker := time.NewTicker(v.ReloadInterval)]
    panics for a non-positive interval, before any round; otherwise the
    loop runs. *)
Definition reload_goroutine (ParseCIDR : string -> option IPNet.t) (ReloadInterval : Z)
    (v : Views.t) (rounds : list Selected) : Outcome (Views.t * list LogEntry) :=
  if (ReloadInterval <=? 0)%Z then Panic else Ok (reload_loop ParseCIDR v rounds).

(* ------------------------------------------------------------------ *)
(** ** Examples for the rest of [setup.go] *)

(** A [time.ParseDuration] for whole seconds (["30s"]). *)
Definition ParseDurationSec (s : string) : Z * option string :=
  match HasSuffix s "s", digits_value (String.substring 0 (String.length s - 1) s) 0%N with
  | true, Some n => ((Z.of_N n * 1000000000)%Z, None)
  | _, _ => (0%Z, Some (String.append "time: invalid duration " s))
  end.

Definition http_form (s : string) : Prop :=
  ∃ t, s = String.append "http://" t \/ s = String.append "https://" t.

Definition yaml_form (s : string) : Prop :=
  ∃ t, s = String.append t ".yaml" \/ s = String.append t ".yml".

Lemma http_form_bool s :
  (HasPrefix s "http://" || HasPrefix s "https://") = true <-> http_form s.
Proof.
  unfold http_form. rewrite orb_true_iff, !HasPrefix_spec.
  split; [intros [[t ?]|[t ?]]; eauto | intros [t [?|?]]; eauto].
Qed.

Lemma yaml_form_bool s :
  (HasSuffix s ".yaml" || HasSuffix s ".yml") = true <-> yaml_form s.
Proof.
  unfold yaml_form. rewrite orb_true_iff, !HasSuffix_spec.
  split; [intros [[t ?]|[t ?]]; eauto | intros [t [?|?]]; eauto].
Qed.

Lemma schemaCheck_ok str sch :
  schemaCheck str = (sch, None) -> sch = SchemaHTTP \/ sch = SchemaYAML.
Proof.
  unfold schemaCheck. destruct (_ || _); [intros [= <-]; auto|].
  destruct (_ || _); [intros [= <-]; auto|]. discriminate.
Qed.

Lemma schemaCheck_empty : snd (schemaCheck "") <> None.
Proof. vm_compute. discriminate. Qed.

(** [schemaCheck] classifies a locator by its form: an [http://] or
    [https://] URL is HTTP (whatever it ends with), otherwise a name
    ending in [.yaml] or [.yml] is YAML, and anything else is refused
    with ["unknown schema: "] followed by the locator. *)
Theorem schemaCheck_classifies (str : string) :
  (schemaCheck str = (SchemaHTTP, None) <-> http_form str) /\
  (schemaCheck str = (SchemaYAML, None) <-> ¬ http_form str /\ yaml_form str) /\
  (schemaCheck str = ("", Some (String.append "unknown schema: " str)) <->
     ¬ http_form str /\ ¬ yaml_form str).
Proof.
  pose proof (http_form_bool str) as Hh. pose proof (yaml_form_bool str) as Hy.
  unfold schemaCheck.
  destruct (HasPrefix str "http://" || HasPrefix str "https://") eqn:E1;
    [|destruct (HasSuffix str ".yaml" || HasSuffix str ".yml") eqn:E2].
  - assert (H : http_form str) by (by apply Hh).
    split; [tauto|]. split; [split; [intros [=] | tauto]|]. split; [intros [=] | tauto].
  - assert (H : ¬ http_form str) by (intros H%Hh; discriminate).
    assert (H' : yaml_form str) by (by apply Hy).
    split; [split; [intros [=] | tauto]|]. split; [tauto|]. split; [intros [=] | tauto].
  - assert (H : ¬ http_form str) by (intros H%Hh; discriminate).
    assert (H' : ¬ yaml_form str) by (intros H'%Hy; discriminate).
    split; [split; [intros [=] | tauto]|]. split; [split; [intros [=] | tauto]|]. tauto.
Qed.

(** ["http://example.com/clients.yaml"] is fetched over HTTP. *)
Lemma schemaCheck_classifies_witness :
  schemaCheck "http://example.com/clients.yaml" = (SchemaHTTP, None) /\
  schemaCheck "clients.yml" = (SchemaYAML, None) /\
  schemaCheck "clients.json" = ("", Some (String.append "unknown schema: " "clients.json")).
Proof.
  destruct (schemaCheck_classifies "http://example.com/clients.yaml") as [[_ H1] _].
  destruct (schemaCheck_classifies "clients.yml") as [_ [[_ H2] _]].
  destruct (schemaCheck_classifies "clients.json") as [_ [_ [_ H3]]].
  split; [apply H1; exists "example.com/clients.yaml"; left; reflexivity|].
  split; [apply H2; split|apply H3; split].
  - intros [t [Ht|Ht]]; apply (f_equal (String.substring 0 4)) in Ht; vm_compute in Ht; discriminate.
  - exists "clients"; right; reflexivity.
  - intros [t [Ht|Ht]]; apply (f_equal (String.substring 0 4)) in Ht; vm_compute in Ht; discriminate.
  - intros [t [Ht|Ht]].
    + assert (Hs : HasSuffix "clients.json" ".yaml" = true) by (apply HasSuffix_spec; eauto).
      vm_compute in Hs. discriminate.
    + assert (Hs : HasSuffix "clients.json" ".yml" = true) by (apply HasSuffix_spec; eauto).
      vm_compute in Hs. discriminate.
Defined.

(* ------------------------------------------------------------------ *)
(** ** [parse] *)

(** The first argument of a line for the directive [key], and of the
    last such line of a list. *)
Definition arg_of (key : string) (line : Line) : option string :=
  if String.eqb (fst line) key then head (snd line) else None.

Definition last_arg (key : string) (lines : list Line) : option string :=
  last (omap (arg_of key) lines).

(** A locator field and its schema after a run: set by the given line,
    with the schema [schemaCheck] found, or unchanged. *)
Definition tracked (o : option string) (x x0 sch sch0 : string) : Prop :=
  match o with
  | Some a => x = a /\ schemaCheck a = (sch, None)
  | None => x = x0 /\ sch = sch0
  end.

Section ParseLemmas.

Variable ParseDuration : string -> Z * option string.

Lemma parse_lines_app st l1 l2 :
  parse_lines ParseDuration st (l1 ++ l2) =
    match parse_lines ParseDuration st l1 with
    | Ok st' => parse_lines ParseDuration st' l2
    | Fail e => Fail e
    | Panic => Panic
    end.
Proof.
  revert st; induction l1 as [|l l1 IH]; intros st; simpl; [done|].
  destruct (parse_line ParseDuration st l); done.
Qed.

Lemma parse_blocks_concat st blocks :
  parse_blocks ParseDuration st blocks = parse_lines ParseDuration st (concat blocks).
Proof.
  revert st; induction blocks as [|b bs IH]; intros st; simpl; [done|].
  rewrite parse_lines_app. destruct (parse_lines ParseDuration st b); done.
Qed.

Lemma last_arg_cons key l rest :
  last_arg key (l :: rest) =
    match last_arg key rest with Some a => Some a | None => arg_of key l end.
Proof.
  unfold last_arg. csimpl. destruct (arg_of key l) eqn:E.
  - rewrite last_cons. done.
  - destruct (last (omap (arg_of key) rest)); done.
Qed.

Lemma tracked_compose o1 o2 x0 x1 x2 s0 s1 s2 :
  tracked o1 x1 x0 s1 s0 -> tracked o2 x2 x1 s2 s1 ->
  tracked (match o2 with Some a => Some a | None => o1 end) x2 x0 s2 s0.
Proof. destruct o1, o2; simpl; intuition congruence. Qed.

Definition interval_after (o : option string) (d0 : Z) : Z :=
  match o with Some a => fst (ParseDuration a) | None => d0 end.

Lemma parse_line_ok st l st' :
  parse_line ParseDuration st l = Ok st' ->
  tracked (arg_of "client" l) (ParseState.client st') (ParseState.client st)
    (ParseState.clientSchema st') (ParseState.clientSchema st) /\
  tracked (arg_of "record" l) (ParseState.record st') (ParseState.record st)
    (ParseState.recordSchema st') (ParseState.recordSchema st) /\
  ParseState.ReloadInterval st' = interval_after (arg_of "reload" l) (ParseState.ReloadInterval st) /\
  (ParseState.err st = None -> ParseState.err st' = None).
Proof.
  destruct l as [d args]. unfold parse_line.
  destruct (String.eqb d "client") eqn:Ec;
    [apply String.eqb_eq in Ec; subst d
    |destruct (String.eqb d "record") eqn:Er;
      [apply String.eqb_eq in Er; subst d
      |destruct (String.eqb d "reload") eqn:Ed;
        [apply String.eqb_eq in Ed; subst d|intros [=]]]].
  - destruct args as [|a rest]; [intros [=]|].
    destruct (schemaCheck a) as [sch [e|]] eqn:Es; [intros [=]|].
    intros [= <-]. unfold arg_of, tracked, interval_after; simpl. auto.
  - destruct args as [|a rest]; [intros [=]|].
    destruct (schemaCheck a) as [sch [e|]] eqn:Es; [intros [=]|].
    intros [= <-]. unfold arg_of, tracked, interval_after; simpl. auto.
  - destruct args as [|a rest]; [intros [=]|].
    destruct (ParseDuration a) as [dur [e|]] eqn:Ep; [intros [=]|].
    intros [= <-]. unfold arg_of, tracked, interval_after; simpl. rewrite Ep. auto.
Qed.

Lemma parse_lines_ok st lines st' :
  parse_lines ParseDuration st lines = Ok st' ->
  tracked (last_arg "client" lines) (ParseState.client st') (ParseState.client st)
    (ParseState.clientSchema st') (ParseState.clientSchema st) /\
  tracked (last_arg "record" lines) (ParseState.record st') (ParseState.record st)
    (ParseState.recordSchema st') (ParseState.recordSchema st) /\
  ParseState.ReloadInterval st' = interval_after (last_arg "reload" lines) (ParseState.ReloadInterval st) /\
  (ParseState.err st = None -> ParseState.err st' = None).
Proof.
  revert st; induction lines as [|l rest IH]; intros st; simpl.
  - intros [= <-]. unfold last_arg, tracked, interval_after; simpl. auto.
  - destruct (parse_line ParseDuration st l) as [s1| |] eqn:E1; [|intros [=]|intros [=]].
    intros Hrest.
    destruct (parse_line_ok _ _ _ E1) as (Hc1 & Hr1 & Hd1 & He1).
    destruct (IH _ Hrest) as (Hc2 & Hr2 & Hd2 & He2).
    rewrite !last_arg_cons.
    split; [eapply tracked_compose; eauto|].
    split; [eapply tracked_compose; eauto|].
    split; [|auto].
    rewrite Hd2. unfold interval_after in *.
    destruct (last_arg "reload" rest); [done|]. done.
Qed.

Lemma tracked_nonempty o x x0 sch sch0 :
  tracked o x x0 sch sch0 -> x0 = "" -> x <> "" -> ∃ a, o = Some a /\ x = a.
Proof.
  destruct o as [a|]; simpl; [intros [-> _] _ _; eauto | intros [-> _] -> []; done].
Qed.

End ParseLemmas.

(** A successful [parse] takes the first argument of the last [client]
    line and of the last [record] line as the locators, with the schema
    [schemaCheck] gives them (so each schema is HTTP or YAML), and the
    duration of the last [reload] line, or 30 seconds when there is none;
    nothing is loaded yet. *)
Theorem parse_ok_fields (ParseDuration : string -> Z * option string)
  (blocks : list (list Line)) (v : Views.t) (d : Z) :
  parse ParseDuration blocks = Ok (v, d) ->
  last_arg "client" (concat blocks) = Some (Views.Client v) /\
  schemaCheck (Views.Client v) = (Views.ClientSchema v, None) /\
  last_arg "record" (concat blocks) = Some (Views.Record' v) /\
  schemaCheck (Views.Record' v) = (Views.RecordSchema v, None) /\
  (Views.ClientSchema v = SchemaHTTP \/ Views.ClientSchema v = SchemaYAML) /\
  (Views.RecordSchema v = SchemaHTTP \/ Views.RecordSchema v = SchemaYAML) /\
  d = match last_arg "reload" (concat blocks) with
      | Some a => fst (ParseDuration a)
      | None => defaultReloadInterval
      end /\
  Views.ClientACLs v = [] /\ Views.ClientZones v = ∅.
Proof.
  unfold parse. rewrite parse_blocks_concat.
  destruct (parse_lines ParseDuration parse_init (concat blocks)) as [st| |] eqn:E;
    [|intros [=]|intros [=]].
  destruct (parse_lines_ok _ _ _ _ E) as (Hc & Hr & Hd & _).
  destruct (ParseState.err st); [intros [=]|].
  destruct (String.eqb (ParseState.client st) "") eqn:Ec; [intros [=]|].
  destruct (String.eqb (ParseState.record st) "") eqn:Er; [intros [=]|].
  intros [= <- <-]; cbn [Views.Client Views.Record' Views.ClientSchema Views.RecordSchema
                           Views.ClientACLs Views.ClientZones].
  apply String.eqb_neq in Ec, Er.
  destruct (last_arg "client" (concat blocks)) as [a|] eqn:Ea;
    [|destruct Hc as [Hc _]; done].
  destruct (last_arg "record" (concat blocks)) as [b|] eqn:Eb;
    [|destruct Hr as [Hr _]; done].
  destruct Hc as [-> Hsc]. destruct Hr as [-> Hsr].
  split; [done|]. split; [done|]. split; [done|]. split; [done|].
  split; [by eapply schemaCheck_ok|]. split; [by eapply schemaCheck_ok|].
  split; [|done]. rewrite Hd. unfold interval_after.
  by destruct (last_arg "reload" (concat blocks)).
Qed.

(** A configuration with a client file, a record URL and a reload
    interval of 10 seconds. *)
Definition example_block : list Line :=
  [("client", ["clients.yaml"]); ("record", ["https://example.com/records"]); ("reload", ["10s"])].

Lemma parse_ok_fields_witness :
  ∃ v d, parse ParseDurationSec [example_block] = Ok (v, d) /\
    last_arg "client" (concat [example_block]) = Some (Views.Client v) /\
    (Views.RecordSchema v = SchemaHTTP \/ Views.RecordSchema v = SchemaYAML) /\
    d = match last_arg "reload" (concat [example_block]) with
        | Some a => fst (ParseDurationSec a)
        | None => defaultReloadInterval
        end.
Proof.
  eexists _, _. split; [vm_compute; reflexivity|].
  destruct (parse_ok_fields ParseDurationSec [example_block] _ _ (eq_refl _))
    as (Hc & _ & _ & _ & _ & Hrs & Hd & _).
  split; [exact Hc|]. split; [exact Hrs|exact Hd].
Defined.

(** When every line of the blocks is accepted, [parse] fails only for a
    missing locator: with no [client] line it reports
    ["required argument is missing: 'client'"] (whether or not a
    [record] line is there), with a client but no [record] line
    ["required argument is missing: 'record'"]; the check of [err] after
    the loops never fires, since every error returns at once. *)
Theorem parse_required (ParseDuration : string -> Z * option string)
  (blocks : list (list Line)) (st : ParseState.t) :
  parse_blocks ParseDuration parse_init blocks = Ok st ->
  ParseState.err st = None /\
  (last_arg "client" (concat blocks) = None ->
     parse ParseDuration blocks = Fail "required argument is missing: 'client'") /\
  (last_arg "client" (concat blocks) <> None -> last_arg "record" (concat blocks) = None ->
     parse ParseDuration blocks = Fail "required argument is missing: 'record'").
Proof.
  intros E. unfold parse. rewrite E.
  rewrite parse_blocks_concat in E.
  destruct (parse_lines_ok _ _ _ _ E) as (Hc & Hr & _ & He).
  specialize (He eq_refl). rewrite He.
  split; [done|]. split.
  - intros Hn. rewrite Hn in Hc. destruct Hc as [-> _]. done.
  - intros Hs Hn. rewrite Hn in Hr. destruct Hr as [-> _].
    destruct (last_arg "client" (concat blocks)) as [a|]; [|done].
    destruct Hc as [-> Hsc].
    destruct (String.eqb a "") eqn:Ea; [|done].
    apply String.eqb_eq in Ea; subst a. vm_compute in Hsc. discriminate.
Qed.

Lemma parse_required_witness :
  parse ParseDurationSec [[("record", ["records.yaml"])]] = Fail "required argument is missing: 'client'" /\
  parse ParseDurationSec [[("client", ["clients.yaml"])]; [("reload", ["5s"])]] =
    Fail "required argument is missing: 'record'".
Proof.
  split.
  - apply (parse_required ParseDurationSec [[("record", ["records.yaml"])]] _ (eq_refl _)).
    vm_compute. reflexivity.
  - apply (parse_required ParseDurationSec [[("client", ["clients.yaml"])]; [("reload", ["5s"])]] _ (eq_refl _)).
    + vm_compute. discriminate.
    + vm_compute. reflexivity.
Defined.

(** [parse] stops at the first line it refuses, whatever follows: a
    [client], [record] or [reload] line without argument panics (index
    out of range), any other directive is refused with
    ["unknown argument: "] and its name, a locator of unknown schema
    and a malformed duration are refused with their error. *)
Theorem parse_stops_at_bad_line (ParseDuration : string -> Z * option string)
  (blocks : list (list Line)) (pre post : list Line) (d : string) (args : list string)
  (st : ParseState.t) :
  concat blocks = pre ++ (d, args) :: post ->
  parse_lines ParseDuration parse_init pre = Ok st ->
  ((d = "client" \/ d = "record" \/ d = "reload") -> args = [] ->
     parse ParseDuration blocks = Panic) /\
  (d <> "client" -> d <> "record" -> d <> "reload" ->
     parse ParseDuration blocks = Fail (String.append "unknown argument: " d)) /\
  (∀ a rest e, (d = "client" \/ d = "record") -> args = a :: rest ->
     snd (schemaCheck a) = Some e -> parse ParseDuration blocks = Fail e) /\
  (∀ a rest e, d = "reload" -> args = a :: rest ->
     snd (ParseDuration a) = Some e -> parse ParseDuration blocks = Fail e).
Proof.
  intros Hb Hpre. unfold parse. rewrite parse_blocks_concat, Hb, parse_lines_app, Hpre.
  cbn [parse_lines]. unfold parse_line.
  split; [|split; [|split]].
  - intros Hd ->. destruct Hd as [Hd|[Hd|Hd]]; subst d; done.
  - intros H1 H2 H3. apply String.eqb_neq in H1, H2, H3. rewrite H1, H2, H3. done.
  - intros a rest e Hd -> He.
    destruct (schemaCheck a) as [sch err] eqn:Es. cbn [snd] in He. subst err.
    destruct Hd as [Hd|Hd]; subst d; reflexivity.
  - intros a rest e -> -> He.
    destruct (ParseDuration a) as [dur err] eqn:Ep. cbn [snd] in He. subst err.
    reflexivity.
Qed.

Lemma parse_stops_at_bad_line_witness :
  parse ParseDurationSec [[("client", ["clients.yaml"]); ("upstream", ["8.8.8.8"])]; example_block] =
    Fail (String.append "unknown argument: " "upstream") /\
  parse ParseDurationSec [[("client", [])]; example_block] = Panic.
Proof.
  split.
  - destruct (parse_stops_at_bad_line ParseDurationSec
                [[("client", ["clients.yaml"]); ("upstream", ["8.8.8.8"])]; example_block]
                [("client", ["clients.yaml"])] example_block "upstream" ["8.8.8.8"] _
                (eq_refl _) (eq_refl _)) as (_ & H & _).
    apply H; discriminate.
  - destruct (parse_stops_at_bad_line ParseDurationSec [[("client", [])]; example_block]
                [] example_block "client" [] _ (eq_refl _) (eq_refl _)) as (H & _).
    apply H; [left; reflexivity | reflexivity].
Defined.

(* ------------------------------------------------------------------ *)
(** ** Successive loads *)

(** The fields [loadConfig] reads: the locators and their schemas. *)
Definition same_locators (v w : Views.t) : Prop :=
  Views.Client v = Views.Client w /\ Views.Record' v = Views.Record' w /\
  Views.ClientSchema v = Views.ClientSchema w /\ Views.RecordSchema v = Views.RecordSchema w.

Section RefreshLemmas.

Variable ParseCIDR : string -> option IPNet.t.

Lemma loadConfig_locators src v : same_locators (fst (loadConfig ParseCIDR src v)) v.
Proof.
  unfold loadConfig.
  destruct (fetch_clients src v) as [rawClients errC].
  destruct (fetch_records src v errC) as [rawRecords errR].
  destruct (build_acls ParseCIDR rawClients) as [acls ws].
  repeat split.
Qed.

Lemma loadConfig_same_locators src v w :
  same_locators v w -> loadConfig ParseCIDR src v = loadConfig ParseCIDR src w.
Proof.
  intros (Hc & Hr & Hcs & Hrs). unfold loadConfig, fetch_clients, fetch_records.
  rewrite Hc, Hr, Hcs, Hrs. done.
Qed.

Lemma loadConfig_after_load src src' v :
  loadConfig ParseCIDR src (fst (loadConfig ParseCIDR src' v)) = loadConfig ParseCIDR src v.
Proof. apply loadConfig_same_locators, loadConfig_locators. Qed.

End RefreshLemmas.

(** A refresh forgets the previous ones: [loadConfig] never changes the
    locators or their schemas and rebuilds everything else from what it
    fetches, so loading after an earlier load (of any data) gives the
    same plugin value and the same log as loading the first time. *)
Theorem loadConfig_refresh_forgets (ParseCIDR : string -> option IPNet.t)
  (src src' : Sources.t) (v : Views.t) :
  same_locators (fst (loadConfig ParseCIDR src v)) v /\
  loadConfig ParseCIDR src (fst (loadConfig ParseCIDR src' v)) = loadConfig ParseCIDR src v.
Proof. split; [apply loadConfig_locators | apply loadConfig_after_load]. Qed.

Lemma reload_loop_ticks ParseCIDR v srcs post :
  reload_loop ParseCIDR v (map Ticked srcs ++ Closed :: post) =
    (match last srcs with None => v | Some src => fst (loadConfig ParseCIDR src v) end,
     concat (map (fun src => snd (loadConfig ParseCIDR src v)) srcs)).
Proof.
  revert v; induction srcs as [|s srcs IH]; intros v; [done|].
  cbn [map app reload_loop].
  destruct (loadConfig ParseCIDR s v) as [v' l] eqn:E.
  rewrite IH. rewrite last_cons. cbn [concat map].
  assert (Hv' : v' = fst (loadConfig ParseCIDR s v)) by (by rewrite E).
  assert (Hl : l = snd (loadConfig ParseCIDR s v)) by (by rewrite E).
  f_equal.
  - destruct (last srcs) as [src|]; [|done]. subst v'. apply (f_equal fst), loadConfig_after_load.
  - subst l v'. do 2 f_equal. apply map_ext. intros src. apply (f_equal snd), loadConfig_after_load.
Qed.

(** The reload goroutine panics at [time.NewTicker] when the interval
    is not positive, whatever the rounds.  With a positive interval it
    runs [loadConfig] once per tick until it receives from the closed
    channel, and nothing after that: the plugin value it leaves is the
    one loaded by the last tick before the close (the value it started
    with if there was none), and each tick logs what a load of its data
    from that starting value logs. *)
Theorem reload_goroutine_ticks (ParseCIDR : string -> option IPNet.t) (interval : Z)
  (v : Views.t) (srcs : list Sources.t) (post : list Selected) :
  ((interval <= 0)%Z ->
     reload_goroutine ParseCIDR interval v (map Ticked srcs ++ Closed :: post) = Panic) /\
  ((0 < interval)%Z ->
     reload_goroutine ParseCIDR interval v (map Ticked srcs ++ Closed :: post) =
       Ok (match last srcs with None => v | Some src => fst (loadConfig ParseCIDR src v) end,
           concat (map (fun src => snd (loadConfig ParseCIDR src v)) srcs))).
Proof.
  unfold reload_goroutine. split; intros H.
  - destruct (Z.leb_spec interval 0); [done|lia].
  - destruct (Z.leb_spec interval 0); [lia|]. by rewrite reload_loop_ticks.
Qed.

(** A configuration with [reload 0s], which [parse] accepts: the
    goroutine panics on its ticker; with the default interval, one tick
    then the close leave the loaded value. *)
Definition reload0_block : list Line :=
  [("client", ["clients.yaml"]); ("record", ["records.yaml"]); ("reload", ["0s"])].

Lemma reload_goroutine_ticks_witness :
  match parse ParseDurationSec [reload0_block] with
  | Ok (v, d) => d = 0%Z /\
      reload_goroutine ParseCIDR4 d v [Ticked scenario_sources; Closed] = Panic
  | _ => False
  end /\
  reload_goroutine ParseCIDR4 defaultReloadInterval views0 [Ticked scenario_sources; Closed] =
    Ok (fst (loadConfig ParseCIDR4 scenario_sources views0),
        snd (loadConfig ParseCIDR4 scenario_sources views0)).
Proof.
  split.
  - destruct (parse ParseDurationSec [reload0_block]) as [[v d]| |] eqn:E;
      try (vm_compute in E; discriminate).
    assert (Hd : d = 0%Z) by (vm_compute in E; congruence).
    split; [exact Hd|].
    apply (proj1 (reload_goroutine_ticks ParseCIDR4 d v [scenario_sources] [])). lia.
  - change [Ticked scenario_sources; Closed] with (map Ticked [scenario_sources] ++ Closed :: []).
    rewrite (proj2 (reload_goroutine_ticks ParseCIDR4 defaultReloadInterval views0
                      [scenario_sources] [])) by (unfold defaultReloadInterval; lia).
    cbn [last concat map]. by rewrite app_nil_r.
Defined.

(* ------------------------------------------------------------------ *)
(** ** What the fetches leave when they fail *)

(** The steps of [parseFromHTTP] before decoding, one of which fails
    with [e]. *)
Definition http_fails {Request Response : Type}
  (UrlParse : string -> string + string) (NewRequest : string -> string -> Request + string)
  (Do : Z -> Request -> Response + string) (ReadAll : Response -> list Byte.byte + string)
  (endpoint e : string) : Prop :=
  UrlParse endpoint = inr e \/
  ∃ u, UrlParse endpoint = inl u /\
    (NewRequest MethodGet u = inr e \/
     ∃ req, NewRequest MethodGet u = inl req /\
       (Do httpTimeout req = inr e \/
        ∃ resp, Do httpTimeout req = inl resp /\ ReadAll resp = inr e)).

Section FetchLemmas.

Context {Request Response : Type}.
Variable ReadFile : string -> list Byte.byte + string.
Variable UrlParse : string -> string + string.
Variable NewRequest : string -> string -> Request + string.
Variable Do : Z -> Request -> Response + string.
Variable ReadAll : Response -> list Byte.byte + string.

Lemma parseFromYAML_unread {A} (u : Unmarshal A) f out e :
  ReadFile f = inr e -> parseFromYAML ReadFile u f out = (out, Some e).
Proof. intros H. unfold parseFromYAML. by rewrite H. Qed.

Lemma parseFromHTTP_unfetched {A} (u : Unmarshal A) endpoint out e :
  http_fails UrlParse NewRequest Do ReadAll endpoint e ->
  parseFromHTTP UrlParse NewRequest Do ReadAll u endpoint out = (out, Some e).
Proof.
  unfold parseFromHTTP.
  intros [H|(x & H1 & [H|(req & H2 & [H|(resp & H3 & H)])])];
    repeat match goal with Hx : _ = _ |- _ => rewrite Hx; clear Hx end; done.
Qed.

End FetchLemmas.

Lemma SchemaHTTP_YAML : String.eqb SchemaHTTP SchemaYAML = false.
Proof. reflexivity. Qed.

(** A locator that cannot be read (YAML) or fetched (HTTP: URL parsing,
    request creation, the request or reading the body fails) leaves its
    output variable [nil]: the load then has no address group at all
    and logs that error first, or has no record set at all and logs
    that error. *)
Theorem fetch_failure_empties {Request Response : Type}
  (ParseCIDR : string -> option IPNet.t)
  (ReadFile : string -> list Byte.byte + string) (UrlParse : string -> string + string)
  (NewRequest : string -> string -> Request + string) (Do : Z -> Request -> Response + string)
  (ReadAll : Response -> list Byte.byte + string)
  (yc jc : Unmarshal RawClientACL.t) (yr jr : Unmarshal RawRecord.t) (v : Views.t) (e : string) :
  let src := sources_of ReadFile UrlParse NewRequest Do ReadAll yc jc yr jr in
  ((Views.ClientSchema v = SchemaYAML /\ ReadFile (Views.Client v) = inr e) \/
   (Views.ClientSchema v = SchemaHTTP /\ http_fails UrlParse NewRequest Do ReadAll (Views.Client v) e) ->
   Views.ClientACLs (fst (loadConfig ParseCIDR src v)) = [] /\
   head (snd (loadConfig ParseCIDR src v)) = Some (LogError e)) /\
  ((Views.RecordSchema v = SchemaYAML /\ ReadFile (Views.Record' v) = inr e) \/
   (Views.RecordSchema v = SchemaHTTP /\ http_fails UrlParse NewRequest Do ReadAll (Views.Record' v) e) ->
   Views.ClientZones (fst (loadConfig ParseCIDR src v)) = ∅ /\
   LogError e ∈ snd (loadConfig ParseCIDR src v)).
Proof.
  intros src.
  assert (Hcl : ((Views.ClientSchema v = SchemaYAML /\ ReadFile (Views.Client v) = inr e) \/
     (Views.ClientSchema v = SchemaHTTP /\ http_fails UrlParse NewRequest Do ReadAll (Views.Client v) e)) ->
     fetch_clients src v = ([], Some e)).
  { unfold fetch_clients, src, sources_of; cbn [Sources.yamlClients Sources.httpClients].
    intros [[-> H]|[-> H]].
    - rewrite String.eqb_refl. by apply parseFromYAML_unread.
    - rewrite SchemaHTTP_YAML, String.eqb_refl. by apply parseFromHTTP_unfetched. }
  assert (Hrc : ∀ err, ((Views.RecordSchema v = SchemaYAML /\ ReadFile (Views.Record' v) = inr e) \/
     (Views.RecordSchema v = SchemaHTTP /\ http_fails UrlParse NewRequest Do ReadAll (Views.Record' v) e)) ->
     fetch_records src v err = ([], Some e)).
  { unfold fetch_records, src, sources_of; cbn [Sources.yamlRecords Sources.httpRecords].
    intros err [[-> H]|[-> H]].
    - rewrite String.eqb_refl. by apply parseFromYAML_unread.
    - rewrite SchemaHTTP_YAML, String.eqb_refl. by apply parseFromHTTP_unfetched. }
  split.
  - intros H. specialize (Hcl H).
    rewrite loadConfig_acls, Hcl. split; [done|].
    destruct (loadConfig_logs ParseCIDR src v) as [ws ->]. rewrite Hcl. done.
  - intros H. rewrite loadConfig_zones, (Hrc _ H). split; [done|].
    destruct (loadConfig_logs ParseCIDR src v) as [ws ->]. rewrite (Hrc _ H).
    apply elem_of_app; right. apply elem_of_app; left. constructor.
Qed.

(** Both files of the scenario missing. *)
Definition no_such_file (f : string) : list Byte.byte + string :=
  inr (String.append "open " (String.append f ": no such file or directory")).

Lemma fetch_failure_empties_witness :
  Views.ClientACLs (fst (loadConfig ParseCIDR4
     (sources_of (Request := unit) (Response := unit) no_such_file inl (fun _ _ => inl tt)
        (fun _ _ => inl tt) (fun _ => inl []) (fun _ out => (out, None)) (fun _ out => (out, None))
        (fun _ out => (out, None)) (fun _ out => (out, None))) views0)) = [] /\
  head (snd (loadConfig ParseCIDR4
     (sources_of (Request := unit) (Response := unit) no_such_file inl (fun _ _ => inl tt)
        (fun _ _ => inl tt) (fun _ => inl []) (fun _ out => (out, None)) (fun _ out => (out, None))
        (fun _ out => (out, None)) (fun _ out => (out, None))) views0)) =
    Some (LogError "open clients.yaml: no such file or directory").
Proof.
  apply (fetch_failure_empties ParseCIDR4 no_such_file inl (fun _ _ => inl tt)
           (fun _ _ => inl tt) (fun _ => inl []) (fun _ out => (out, None)) (fun _ out => (out, None))
           (fun _ out => (out, None)) (fun _ out => (out, None)) views0
           "open clients.yaml: no such file or directory").
  left. split; reflexivity.
Defined.

(* ------------------------------------------------------------------ *)
(** ** The record-set map and the group list *)

Lemma build_client_zones_fold_lookup rawRecords m n :
  fold_left insert_record_set rawRecords m !! n =
    match last (filter (fun r => RawRecord.Name r = n) rawRecords) with
    | Some r => Some (build_zones (RawRecord.Records r))
    | None => m !! n
    end.
Proof.
  revert m; induction rawRecords as [|r rs IH] using rev_ind; intros m; [done|].
  rewrite fold_left_app, filter_app. cbn [fold_left]. unfold insert_record_set at 1.
  rewrite filter_cons, last_app. destruct (decide (RawRecord.Name r = n)) as [E|E].
  - subst n. rewrite lookup_insert_eq. done.
  - rewrite lookup_insert_ne by done. cbn [filter list_filter last]. apply IH.
Qed.

(** The record-set map has one entry per distinct record-set name; for
    a name given to several record sets the entry is built from the last
    of them alone (the earlier ones are replaced, not merged). *)
Theorem build_client_zones_last_set (rawRecords : list RawRecord.t) (n : string) :
  build_client_zones rawRecords !! n =
    (fun r => build_zones (RawRecord.Records r)) <$> last (filter (fun r => RawRecord.Name r = n) rawRecords) /\
  dom (build_client_zones rawRecords) = list_to_set (map RawRecord.Name rawRecords).
Proof.
  rewrite build_client_zones_fold. split.
  - rewrite build_client_zones_fold_lookup. by destruct (last _).
  - assert (Hd : ∀ m, dom (fold_left insert_record_set rawRecords m) =
                      dom m ∪ list_to_set (map RawRecord.Name rawRecords)).
    { clear n. induction rawRecords as [|r rs IH]; intros m; simpl; [set_solver|].
      rewrite IH. unfold insert_record_set. rewrite dom_insert_L. set_solver. }
    rewrite Hd, dom_empty_L. set_solver.
Qed.

(** Two record sets named [internal]: only the second one's records are
    served to that view. *)
Lemma build_client_zones_last_set_witness :
  build_client_zones
    [RawRecord.mk "internal" [host_record "10.1.2.3"]; RawRecord.mk "internal" []] !! "internal" =
    Some (build_zones []).
Proof.
  destruct (build_client_zones_last_set
              [RawRecord.mk "internal" [host_record "10.1.2.3"]; RawRecord.mk "internal" []] "internal")
    as [H _].
  rewrite H. vm_compute. reflexivity.
Defined.

(** The warnings of one raw group: one per prefix [net.ParseCIDR]
    refuses, in the order of the prefixes. *)
Definition group_warnings (ParseCIDR : string -> option IPNet.t) (c : RawClientACL.t) : list LogEntry :=
  map (LogWarningInvalidCIDR (RawClientACL.Name c))
    (filter (fun p => ParseCIDR p = None) (RawClientACL.CIDRPrefixes c)).

(** [loadConfig] builds exactly one address group per raw group, in the
    document's order, duplicate names included and also when none of its
    prefixes parses, each with its parsed prefixes in order; its log is
    the client fetch error, the record fetch error, then one warning per
    malformed prefix, group by group in the same order. *)
Theorem loadConfig_groups_and_log (ParseCIDR : string -> option IPNet.t) (src : Sources.t) (v : Views.t) :
  map ClientACL.Name (Views.ClientACLs (fst (loadConfig ParseCIDR src v))) =
    map RawClientACL.Name (fetch_clients src v).1 /\
  map ClientACL.CIDRNets (Views.ClientACLs (fst (loadConfig ParseCIDR src v))) =
    map (fun c => omap ParseCIDR (RawClientACL.CIDRPrefixes c)) (fetch_clients src v).1 /\
  snd (loadConfig ParseCIDR src v) =
    log_err (fetch_clients src v).2 ++ log_err (fetch_records src v (fetch_clients src v).2).2 ++
    concat (map (group_warnings ParseCIDR) (fetch_clients src v).1).
Proof.
  split; [|split].
  - rewrite loadConfig_acls, map_map. apply map_ext. done.
  - rewrite loadConfig_acls, map_map. apply map_ext. intros c. apply acl_of_nets.
  - unfold loadConfig.
    destruct (fetch_clients src v) as [rawClients errC]. cbn [fst snd].
    destruct (fetch_records src v errC) as [rawRecords errR]. cbn [fst snd].
    assert (Hw : snd (build_acls ParseCIDR rawClients) =
                 concat (map (group_warnings ParseCIDR) rawClients)).
    { unfold build_acls. rewrite build_acls_fold_snd. cbn [snd app]. f_equal.
      apply map_ext. intros c. unfold parse_cidrs. rewrite parse_cidrs_fold_snd. done. }
    destruct (build_acls ParseCIDR rawClients) as [acls ws]. cbn [snd] in Hw |- *. by rewrite Hw.
Qed.

(** The scenario groups with a malformed prefix added to [internal]. *)
Definition scenario_sources_bad : Sources.t :=
  {| Sources.yamlClients := fun _ =>
       ([RawClientACL.mk "internal" ["10.0.0.300/8"; "10.0.0.0/8"]; client_external], None);
     Sources.httpClients := fun _ => ([], Some "unused");
     Sources.yamlRecords := fun _ => (scenario_records, None);
     Sources.httpRecords := fun _ => ([], Some "unused") |}.

Lemma loadConfig_groups_and_log_witness :
  map ClientACL.Name (Views.ClientACLs (fst (loadConfig ParseCIDR4 scenario_sources_bad views0))) =
    ["internal"; "external"] /\
  snd (loadConfig ParseCIDR4 scenario_sources_bad views0) = [LogWarningInvalidCIDR "internal" "10.0.0.300/8"].
Proof.
  destruct (loadConfig_groups_and_log ParseCIDR4 scenario_sources_bad views0) as (Hn & _ & Hl).
  rewrite Hn, Hl. split; vm_compute; reflexivity.
Defined.

(** On a plugin value whose schema is neither ["yaml"] nor ["http"]
    (which [parse] never produces), [loadConfig] fetches nothing for that
    document: with such a client schema there is no group and no client
    error; with such a record schema there is no record set, and the
    error of the client fetch, still in [err], is logged a second
    time. *)
Theorem loadConfig_unknown_schema (ParseCIDR : string -> option IPNet.t) (src : Sources.t) (v : Views.t) :
  (Views.ClientSchema v <> SchemaYAML -> Views.ClientSchema v <> SchemaHTTP ->
     Views.ClientACLs (fst (loadConfig ParseCIDR src v)) = [] /\
     snd (loadConfig ParseCIDR src v) = log_err (fetch_records src v None).2) /\
  (Views.RecordSchema v <> SchemaYAML -> Views.RecordSchema v <> SchemaHTTP ->
     Views.ClientZones (fst (loadConfig ParseCIDR src v)) = ∅ /\
     ∃ ws, snd (loadConfig ParseCIDR src v) =
       log_err (fetch_clients src v).2 ++ log_err (fetch_clients src v).2 ++ ws).
Proof.
  split.
  - intros Hy Hh.
    assert (Hc : fetch_clients src v = ([], None)).
    { unfold fetch_clients. apply String.eqb_neq in Hy, Hh. by rewrite Hy, Hh. }
    split; [by rewrite loadConfig_acls, Hc|].
    destruct (loadConfig_groups_and_log ParseCIDR src v) as (_ & _ & ->).
    rewrite Hc. cbn. by rewrite !app_nil_r.
  - intros Hy Hh.
    assert (Hr : ∀ err, fetch_records src v err = ([], err)).
    { intros err. unfold fetch_records. apply String.eqb_neq in Hy, Hh. by rewrite Hy, Hh. }
    split; [by rewrite loadConfig_zones, Hr|].
    destruct (loadConfig_logs ParseCIDR src v) as [ws ->]. rewrite Hr. eauto.
Qed.

(** The zero plugin value (no [parse]) with a failing record source. *)
Lemma loadConfig_unknown_schema_witness :
  ∃ ws, snd (loadConfig ParseCIDR4 failing_sources
          {| Views.Client := "clients.yaml"; Views.Record' := ""; Views.ClientSchema := SchemaYAML;
             Views.RecordSchema := ""; Views.ClientACLs := []; Views.ClientZones := ∅ |}) =
    [LogError "open clients.yaml: no such file or directory";
     LogError "open clients.yaml: no such file or directory"] ++ ws.
Proof.
  destruct (loadConfig_unknown_schema ParseCIDR4 failing_sources
              {| Views.Client := "clients.yaml"; Views.Record' := ""; Views.ClientSchema := SchemaYAML;
                 Views.RecordSchema := ""; Views.ClientACLs := []; Views.ClientZones := ∅ |})
    as [_ H].
  destruct H as [_ [ws Hws]]; [discriminate|discriminate|].
  exists ws. rewrite Hws. reflexivity.
Defined.

(** On a plugin value built by [parse], every load fetches both
    documents: a locator of the form [http://...] or [https://...] over
    HTTP, any other (it then ends in [.yaml] or [.yml]) as a YAML file;
    the fallback of the switches, which fetches nothing, is never
    taken. *)
Theorem parse_then_fetch (ParseDuration : string -> Z * option string)
  (blocks : list (list Line)) (v : Views.t) (d : Z) (src : Sources.t) (err : option string) :
  parse ParseDuration blocks = Ok (v, d) ->
  fetch_clients src v =
    (if HasPrefix (Views.Client v) "http://" || HasPrefix (Views.Client v) "https://"
     then Sources.httpClients src (Views.Client v)
     else Sources.yamlClients src (Views.Client v)) /\
  fetch_records src v err =
    (if HasPrefix (Views.Record' v) "http://" || HasPrefix (Views.Record' v) "https://"
     then Sources.httpRecords src (Views.Record' v)
     else Sources.yamlRecords src (Views.Record' v)) /\
  (¬ http_form (Views.Client v) -> yaml_form (Views.Client v)) /\
  (¬ http_form (Views.Record' v) -> yaml_form (Views.Record' v)).
Proof.
  intros Hp. destruct (parse_ok_fields _ _ _ _ Hp) as (_ & Hc & _ & Hr & _).
  unfold fetch_clients, fetch_records.
  pose proof (schemaCheck_classifies (Views.Client v)) as (Hc1 & Hc2 & Hc3).
  pose proof (schemaCheck_classifies (Views.Record' v)) as (Hr1 & Hr2 & Hr3).
  revert Hc Hr Hc1 Hc2 Hc3 Hr1 Hr2 Hr3. unfold schemaCheck.
  rewrite <- (http_form_bool (Views.Client v)), <- (http_form_bool (Views.Record' v)).
  destruct (HasPrefix (Views.Client v) "http://" || HasPrefix (Views.Client v) "https://");
  destruct (HasPrefix (Views.Record' v) "http://" || HasPrefix (Views.Record' v) "https://");
  destruct (HasSuffix (Views.Client v) ".yaml" || HasSuffix (Views.Client v) ".yml") eqn:Ey1;
  destruct (HasSuffix (Views.Record' v) ".yaml" || HasSuffix (Views.Record' v) ".yml") eqn:Ey2;
  intros Hc Hr _ _ _ _ _ _;
  try (injection Hc as Hc); try (injection Hr as Hr); try discriminate;
  rewrite <- ?Hc, <- ?Hr; cbn;
  rewrite <- ?(yaml_form_bool (Views.Client v)), <- ?(yaml_form_bool (Views.Record' v));
  repeat split; intros Hn; try (exfalso; apply Hn; done); done.
Qed.

Lemma parse_then_fetch_witness :
  ∃ v d, parse ParseDurationSec [example_block] = Ok (v, d) /\
    fetch_records scenario_sources v None = Sources.httpRecords scenario_sources "https://example.com/records".
Proof.
  eexists _, _. split; [vm_compute; reflexivity|].
  destruct (parse_then_fetch ParseDurationSec [example_block] _ _ scenario_sources None (eq_refl _))
    as (_ & H & _).
  etransitivity; [exact H|]. vm_compute. reflexivity.
Defined.
